(** * vercel-ai-py / nodejs-tester: replay of a recorded UI message stream
      and structural comparison of two snapshots.

    The development embeds [src/nodejs-tester/index.js], which holds two
    scripts.  The first one splits a recorded stream into records, feeds the
    decoded chunks to a [ReadableStream], folds them with
    [readUIMessageStream] and writes the last snapshot to disk.  The second
    one diffs two snapshots with [json-diff-kit] and prints every record
    that is not [equal].

    Conventions.
    - A JavaScript string is its sequence of UTF-16 code units, [list N].
    - Exceptions are explicit: a computation that may throw returns a
      [Completion].
    - A promise that never settles is the explicit outcome [NeverSettles]. *)

From Stdlib Require Import List NArith Arith Bool Lia String Ascii.
From Stdlib Require DecimalN.
Import ListNotations.

Local Open Scope list_scope.

(* ===================================================================== *)
(** * JavaScript values the scripts work on *)
(* ===================================================================== *)

Module JS.

(** A string value: the sequence of its UTF-16 code units. *)
Definition jsstring : Type := list N.

(** The code units of a literal written with characters below U+0100. *)
Definition lit (s : string) : jsstring :=
  map N_of_ascii (list_ascii_of_string s).

(** The double quote, U+0022, and a literal between double quotes. *)
Definition dq : jsstring := [34%N].
Definition quoted (s : string) : jsstring := dq ++ lit s ++ dq.

(** The line feed, U+000A. *)
Definition LF : N := 10%N.

Fixpoint jsstring_eqb (a b : jsstring) : bool :=
  match a, b with
  | [], [] => true
  | x :: a', y :: b' => N.eqb x y && jsstring_eqb a' b'
  | _, _ => false
  end.

(** [a.startsWith(p)] *)
Fixpoint startsWith (p a : jsstring) : bool :=
  match p, a with
  | [], _ => true
  | x :: p', y :: a' => N.eqb x y && startsWith p' a'
  | _ :: _, [] => false
  end.

(** ** [String.prototype.split] with a non-empty separator

    The scan keeps the field under construction in [cur] (reversed).  When
    the separator matches at the current position the field is closed and
    the remaining [skip] code units of the separator are passed over. *)
Fixpoint split_from (sep s : jsstring) (skip : nat) (cur : jsstring)
  : list jsstring :=
  match s with
  | [] => [rev cur]
  | c :: s' =>
      match skip with
      | S k => split_from sep s' k cur
      | O =>
          if startsWith sep s
          then rev cur :: split_from sep s' (pred (List.length sep)) []
          else split_from sep s' 0 (c :: cur)
      end
  end.

Definition split (sep s : jsstring) : list jsstring := split_from sep s 0 [].

(** ** [String.prototype.trim]

    WhiteSpace and LineTerminator of ECMAScript: TAB, LF, VT, FF, CR, SP,
    NBSP, U+1680, U+2000..U+200A, LS, PS, U+202F, U+205F, U+3000, U+FEFF. *)
Definition isWhiteSpace (c : N) : bool :=
  ((9 <=? c) && (c <=? 13) || (c =? 32) || (c =? 160) || (c =? 5760)
   || (8192 <=? c) && (c <=? 8202) || (c =? 8232) || (c =? 8233)
   || (c =? 8239) || (c =? 8287) || (c =? 12288) || (c =? 65279))%N.

Fixpoint trimStart (s : jsstring) : jsstring :=
  match s with
  | c :: s' => if isWhiteSpace c then trimStart s' else s
  | [] => []
  end.

Fixpoint trimEnd (s : jsstring) : jsstring :=
  match s with
  | [] => []
  | c :: s' =>
      match trimEnd s' with
      | [] => if isWhiteSpace c then [] else [c]
      | t => c :: t
      end
  end.

Definition trim (s : jsstring) : jsstring := trimEnd (trimStart s).

(** [s.slice(n)] for a non-negative [n]: everything from index [n] on, and
    the empty string when [s] is shorter. *)
Definition slice (n : nat) (s : jsstring) : jsstring := skipn n s.

(** [!s] on a string: only the empty string is falsy. *)
Definition isEmpty (s : jsstring) : bool :=
  match s with [] => true | _ :: _ => false end.

(** ** JSON values

    A number keeps the text of its literal; its conversion to a double is
    not modelled.  An object keeps its members in the order in which their
    keys were first defined. *)
Unset Elimination Schemes.
Inductive JSON : Type :=
| JNull
| JBool (b : bool)
| JNumber (literal : jsstring)
| JString (s : jsstring)
| JArray (elements : list JSON)
| JObject (members : list (jsstring * JSON)).
Set Elimination Schemes.

(** Induction with the hypothesis available on every element and member. *)
Fixpoint JSON_ind (P : JSON -> Prop)
  (Hnull : P JNull) (Hbool : forall b, P (JBool b))
  (Hnum : forall n, P (JNumber n)) (Hstr : forall s, P (JString s))
  (Harr : forall l, Forall P l -> P (JArray l))
  (Hobj : forall m, Forall (fun kv => P (snd kv)) m -> P (JObject m))
  (j : JSON) {struct j} : P j :=
  match j with
  | JNull => Hnull
  | JBool b => Hbool b
  | JNumber n => Hnum n
  | JString s => Hstr s
  | JArray l =>
      Harr l ((fix all (l : list JSON) : Forall P l :=
                 match l with
                 | [] => Forall_nil P
                 | x :: l' =>
                     Forall_cons x
                       (JSON_ind P Hnull Hbool Hnum Hstr Harr Hobj x) (all l')
                 end) l)
  | JObject m =>
      Hobj m ((fix all (m : list (jsstring * JSON))
                 : Forall (fun kv => P (snd kv)) m :=
                 match m with
                 | [] => Forall_nil _
                 | kv :: m' =>
                     Forall_cons kv
                       (JSON_ind P Hnull Hbool Hnum Hstr Harr Hobj (snd kv))
                       (all m')
                 end) m)
  end.

(** Own property lookup, [o[k]]. *)
Fixpoint getProperty (k : jsstring) (m : list (jsstring * JSON)) : option JSON :=
  match m with
  | [] => None
  | (k', v) :: m' => if jsstring_eqb k k' then Some v else getProperty k m'
  end.

(** Property definition, [o[k] = v]: an existing key keeps its place. *)
Fixpoint setProperty (k : jsstring) (v : JSON) (m : list (jsstring * JSON))
  : list (jsstring * JSON) :=
  match m with
  | [] => [(k, v)]
  | (k', v') :: m' =>
      if jsstring_eqb k k' then (k', v) :: m' else (k', v') :: setProperty k v m'
  end.

(** ** [JSON.parse]

    A recursive-descent reading of the JSON grammar.  The recursion is
    bounded by a budget; [Starved] says the budget ran out, which
    [JSFacts.parseText_budget] shows never happens at the budget
    [parseText] uses. *)
Inductive Parsed (A : Type) : Type :=
| Accept (a : A) (rest : jsstring)
| Reject
| Starved.
Arguments Accept {A} a rest.
Arguments Reject {A}.
Arguments Starved {A}.

(** JSON white space: TAB, LF, CR, SP. *)
Definition isJSONWhiteSpace (c : N) : bool :=
  ((c =? 9) || (c =? 10) || (c =? 13) || (c =? 32))%N.

Fixpoint skipWhiteSpace (s : jsstring) : jsstring :=
  match s with
  | c :: s' => if isJSONWhiteSpace c then skipWhiteSpace s' else s
  | [] => []
  end.

Definition isDigit (c : N) : bool := ((48 <=? c) && (c <=? 57))%N.

(** The longest run of digits at the head of [s], and what follows it. *)
Fixpoint digits (s : jsstring) : jsstring * jsstring :=
  match s with
  | c :: s' =>
      if isDigit c then let (d, r) := digits s' in (c :: d, r) else ([], s)
  | [] => ([], [])
  end.

(** A number: an optional minus sign; an integer part that is a single zero
    or starts with a non-zero digit; an optional fraction, a dot and at least
    one digit; an optional exponent, e or E, an optional sign and at least
    one digit. *)
Definition parseInt (s : jsstring) : option (jsstring * jsstring) :=
  match s with
  | c :: r =>
      if (c =? 48)%N then Some ([c], r)
      else if isDigit c then let (d, r') := digits r in Some (c :: d, r')
      else None
  | [] => None
  end.

Definition parseFraction (s : jsstring) : option (jsstring * jsstring) :=
  match s with
  | c :: r =>
      if (c =? 46)%N then
        match digits r with
        | ([], _) => None
        | (d, r') => Some (c :: d, r')
        end
      else Some ([], s)
  | [] => Some ([], s)
  end.

Definition parseExponent (s : jsstring) : option (jsstring * jsstring) :=
  match s with
  | e :: r =>
      if ((e =? 101) || (e =? 69))%N then
        let (sign, r1) :=
          match r with
          | c :: r' => if ((c =? 43) || (c =? 45))%N then ([c], r') else ([], r)
          | [] => ([], r)
          end in
        match digits r1 with
        | ([], _) => None
        | (d, r2) => Some (e :: sign ++ d, r2)
        end
      else Some ([], s)
  | [] => Some ([], s)
  end.

Definition parseNumber (s : jsstring) : option (jsstring * jsstring) :=
  let (sign, s1) :=
    match s with
    | c :: r => if (c =? 45)%N then ([c], r) else ([], s)
    | [] => ([], s)
    end in
  match parseInt s1 with
  | None => None
  | Some (i, s2) =>
      match parseFraction s2 with
      | None => None
      | Some (f, s3) =>
          match parseExponent s3 with
          | None => None
          | Some (e, s4) => Some (sign ++ i ++ f ++ e, s4)
          end
      end
  end.

Definition hexValue (c : N) : option N :=
  if isDigit c then Some (c - 48)%N
  else if ((97 <=? c) && (c <=? 102))%N then Some (c - 87)%N
  else if ((65 <=? c) && (c <=? 70))%N then Some (c - 55)%N
  else None.

(** The character a two-character escape stands for. *)
Definition simpleEscape (e : N) : option N :=
  if (e =? 34)%N then Some 34%N
  else if (e =? 92)%N then Some 92%N
  else if (e =? 47)%N then Some 47%N
  else if (e =? 98)%N then Some 8%N
  else if (e =? 102)%N then Some 12%N
  else if (e =? 110)%N then Some 10%N
  else if (e =? 114)%N then Some 13%N
  else if (e =? 116)%N then Some 9%N
  else None.

Definition consChar (c : N) (p : option (jsstring * jsstring))
  : option (jsstring * jsstring) :=
  match p with
  | Some (str, r) => Some (c :: str, r)
  | None => None
  end.

(** A string after its opening quote, up to and including the closing one. *)
Fixpoint parseStringBody (s : jsstring) : option (jsstring * jsstring) :=
  match s with
  | [] => None
  | c :: s1 =>
      if (c =? 34)%N then Some ([], s1)
      else if (c =? 92)%N then
        match s1 with
        | [] => None
        | e :: s2 =>
            if (e =? 117)%N then
              match s2 with
              | h1 :: h2 :: h3 :: h4 :: s6 =>
                  match hexValue h1, hexValue h2, hexValue h3, hexValue h4 with
                  | Some a, Some b, Some c', Some d =>
                      consChar (((a * 16 + b) * 16 + c') * 16 + d)%N
                               (parseStringBody s6)
                  | _, _, _, _ => None
                  end
              | _ => None
              end
            else
              match simpleEscape e with
              | Some ch => consChar ch (parseStringBody s2)
              | None => None
              end
        end
      else if (c <? 32)%N then None
      else consChar c (parseStringBody s1)
  end.

Fixpoint parseValue (fuel : nat) (s : jsstring) {struct fuel} : Parsed JSON :=
  match fuel with
  | O => Starved
  | S fuel' =>
      match skipWhiteSpace s with
      | [] => Reject
      | c :: r =>
          if (c =? 123)%N then
            match skipWhiteSpace r with
            | c' :: r' =>
                if (c' =? 125)%N then Accept (JObject []) r'
                else parseMembers fuel' r []
            | [] => Reject
            end
          else if (c =? 91)%N then
            match skipWhiteSpace r with
            | c' :: r' =>
                if (c' =? 93)%N then Accept (JArray []) r'
                else parseElements fuel' r []
            | [] => Reject
            end
          else if (c =? 34)%N then
            match parseStringBody r with
            | Some (str, r') => Accept (JString str) r'
            | None => Reject
            end
          else if startsWith (lit "true") (c :: r)
          then Accept (JBool true) (skipn 4 (c :: r))
          else if startsWith (lit "false") (c :: r)
          then Accept (JBool false) (skipn 5 (c :: r))
          else if startsWith (lit "null") (c :: r)
          then Accept JNull (skipn 4 (c :: r))
          else
            match parseNumber (c :: r) with
            | Some (n, r') => Accept (JNumber n) r'
            | None => Reject
            end
      end
  end

with parseElements (fuel : nat) (s : jsstring) (acc : list JSON)
  {struct fuel} : Parsed JSON :=
  match fuel with
  | O => Starved
  | S fuel' =>
      match parseValue fuel' s with
      | Accept v r =>
          match skipWhiteSpace r with
          | c :: r' =>
              if (c =? 44)%N then parseElements fuel' r' (v :: acc)
              else if (c =? 93)%N then Accept (JArray (rev (v :: acc))) r'
              else Reject
          | [] => Reject
          end
      | Reject => Reject
      | Starved => Starved
      end
  end

with parseMembers (fuel : nat) (s : jsstring) (acc : list (jsstring * JSON))
  {struct fuel} : Parsed JSON :=
  match fuel with
  | O => Starved
  | S fuel' =>
      match skipWhiteSpace s with
      | q :: r =>
          if (q =? 34)%N then
            match parseStringBody r with
            | Some (k, r1) =>
                match skipWhiteSpace r1 with
                | colon :: r2 =>
                    if (colon =? 58)%N then
                      match parseValue fuel' r2 with
                      | Accept v r3 =>
                          match skipWhiteSpace r3 with
                          | c :: r4 =>
                              if (c =? 44)%N
                              then parseMembers fuel' r4 (setProperty k v acc)
                              else if (c =? 125)%N
                              then Accept (JObject (setProperty k v acc)) r4
                              else Reject
                          | [] => Reject
                          end
                      | Reject => Reject
                      | Starved => Starved
                      end
                    else Reject
                | [] => Reject
                end
            | None => Reject
            end
          else Reject
      | [] => Reject
      end
  end.

(** The value a whole text denotes, when it is a JSON text. *)
Definition parseText (text : jsstring) : option JSON :=
  match parseValue (2 * List.length text + 1) text with
  | Accept v rest => if isEmpty (skipWhiteSpace rest) then Some v else None
  | Reject | Starved => None
  end.

(** ** Exceptions

    The two kinds of exception the scripts can meet.  A [SyntaxError] of
    [JSON.parse] describes the text it was given and nothing else.  The
    [TypeError]s are told apart by their Node.js code. *)
Inductive TypeErrorCode : Type :=
| ERR_INVALID_STATE       (* the stream controller is already closed *)
| ERR_INVALID_ARG_TYPE.   (* an argument is not of an accepted type *)

Inductive Exception : Type :=
| SyntaxError (text : jsstring)
| TypeError (code : TypeErrorCode).

Inductive Completion (A : Type) : Type :=
| Normal (a : A)
| Throw (e : Exception).
Arguments Normal {A} a.
Arguments Throw {A} e.

Definition bind {A B : Type} (m : Completion A) (k : A -> Completion B)
  : Completion B :=
  match m with
  | Normal a => k a
  | Throw e => Throw e
  end.

(** [JSON.parse(text)] *)
Definition JSON_parse (text : jsstring) : Completion JSON :=
  match parseText text with
  | Some v => Normal v
  | None => Throw (SyntaxError text)
  end.

(** [Array.prototype.forEach] with a callback that updates a state [S] and
    may throw: the first exception ends the iteration. *)
Fixpoint forEach {A S : Type} (callback : A -> S -> Completion S)
  (array : list A) (s : S) : Completion S :=
  match array with
  | [] => Normal s
  | x :: rest => bind (callback x s) (forEach callback rest)
  end.

End JS.

Notation "x <- m ;; k" := (JS.bind m (fun x => k))
  (at level 61, m at next level, right associativity).

(* ===================================================================== *)
(** * First script: replaying the recorded stream *)
(* ===================================================================== *)

Module Replay.
Import JS.

(** ** The default controller of a [ReadableStream]

    [closeRequested] is set by [close]; from then on the controller can
    neither close nor enqueue, and both throw a [TypeError]. *)
Record Controller : Type := {
  queue : list JSON;
  closeRequested : bool
}.

Definition newController : Controller :=
  {| queue := []; closeRequested := false |}.

Definition close (controller : Controller) : Completion Controller :=
  if closeRequested controller then Throw (TypeError ERR_INVALID_STATE)
  else Normal {| queue := queue controller; closeRequested := true |}.

Definition enqueue (chunk : JSON) (controller : Controller)
  : Completion Controller :=
  if closeRequested controller then Throw (TypeError ERR_INVALID_STATE)
  else Normal {| queue := queue controller ++ [chunk];
                 closeRequested := closeRequested controller |}.

(** The sentinel payload. *)
Definition DONE : jsstring := lit "[DONE]".

(** The callback of [forEach] in [start] (index.js, lines 9-20). *)
Definition onLine (line : jsstring) (controller : Controller)
  : Completion Controller :=
  let line := trim line in
  if isEmpty line then Normal controller
  else
    let message := slice 6 line in
    if jsstring_eqb message DONE then close controller
    else chunk <- JSON_parse message ;; enqueue chunk controller.

(** [start(controller)] of the underlying source (index.js, lines 7-21). *)
Definition start (content : jsstring) (controller : Controller)
  : Completion Controller :=
  forEach onLine (split [LF; LF] content) controller.

(** A stream as a reader sees it once [start] is over: the chunks still
    queued and whether the stream closes after them.  Nothing else ever
    feeds it, as the underlying source has no [pull]. *)
Record ReadableStream (A : Type) : Type := {
  chunks : list A;
  closed : bool
}.
Arguments chunks {A} _.
Arguments closed {A} _.

(** [new ReadableStream({ start })]: an exception of [start] is thrown by
    the constructor. *)
Definition newReadableStream (content : jsstring)
  : Completion (ReadableStream JSON) :=
  controller <- start content newController ;;
  Normal {| chunks := queue controller; closed := closeRequested controller |}.

(** What running a script to its end can come to. *)
Inductive Run (A : Type) : Type :=
| Returns (a : A)
| Throws (e : Exception)
| NeverSettles.
Arguments Returns {A} a.
Arguments Throws {A} e.
Arguments NeverSettles {A}.

Section Reducer.

(** [readUIMessageStream] comes from the package [ai]: the state it
    starts from and the way it merges a chunk into the state are
    parameters. *)
Variable State : Type.
Variable initialState : State.
Variable merge : State -> JSON -> State.

Fixpoint snapshots (state : State) (events : list JSON) : list State :=
  match events with
  | [] => []
  | event :: rest =>
      let state' := merge state event in state' :: snapshots state' rest
  end.

(** Modelled from the spec: [readUIMessageStream], of the package [ai],
    as the SnapshotReducer of section 4.2.  The state is merged with
    every chunk, in order, and a snapshot of it is emitted after each
    merge; the output closes when the input does. *)
Definition readUIMessageStream (stream : ReadableStream JSON)
  : ReadableStream State :=
  {| chunks := snapshots initialState (chunks stream);
     closed := closed stream |}.

(** The loop of index.js, lines 27-34, with [reader.read()] unfolded: a
    queued chunk is a value, an empty closed stream is [done], and on an
    empty stream that is not closed the promise stays pending. *)
Fixpoint readerLoop (queued : list State) (isClosed : bool)
  (last : option State) : Run (option State) :=
  match queued with
  | value :: rest => readerLoop rest isClosed (Some value)
  | [] => if isClosed then Returns last else NeverSettles
  end.

(** The value of [last] when the loop is left (lines 4-34). *)
Definition lastSnapshot (content : jsstring) : Run (option State) :=
  match newReadableStream content with
  | Throw e => Throws e
  | Normal stream =>
      let s := readUIMessageStream stream in
      readerLoop (chunks s) (closed s) None
  end.

(** [JSON.stringify(value, null, indent)]: [undefined] for [undefined],
    and otherwise the indented text of [value], which is kept as the value
    it renders. *)
Inductive Document : Type :=
| Indented (indent : nat) (value : State).

Definition JSON_stringify (value : option State) (indent : nat)
  : option Document :=
  option_map (Indented indent) value.

(** [fs.writeFileSync(path, data)]: the data written, or the [TypeError]
    thrown when [data] is [undefined]. *)
Definition writeFileSync (data : option Document) : Completion Document :=
  match data with
  | Some text => Normal text
  | None => Throw (TypeError ERR_INVALID_ARG_TYPE)
  end.

(** The whole first script: what ends up in [standard.json]. *)
Definition main (content : jsstring) : Run Document :=
  match lastSnapshot content with
  | Returns last =>
      match writeFileSync (JSON_stringify last 2) with
      | Normal written => Returns written
      | Throw e => Throws e
      end
  | Throws e => Throws e
  | NeverSettles => NeverSettles
  end.

End Reducer.

(** ** The parser as the specification words it

    Records are cut at blank lines, trimmed, and dropped when empty; the
    first six code units of a record are its prefix; what remains is the
    sentinel or a JSON payload. *)
Inductive Frame : Type :=
| Terminal
| Payload (text : jsstring).

Definition toFrame (record : jsstring) : Frame :=
  let payload := slice 6 record in
  if jsstring_eqb payload DONE then Terminal else Payload payload.

Definition frames (content : jsstring) : list Frame :=
  map toFrame
      (filter (fun r => negb (isEmpty r)) (map trim (split [LF; LF] content))).

Definition deliver (frame : Frame) (controller : Controller)
  : Completion Controller :=
  match frame with
  | Terminal => close controller
  | Payload text => chunk <- JSON_parse text ;; enqueue chunk controller
  end.

(** ** The merge strategy of the end-to-end scenario *)

(** The string that member [k] of [v] holds, empty when there is none. *)
Definition stringField (k : jsstring) (v : JSON) : jsstring :=
  match v with
  | JObject m =>
      match getProperty k m with
      | Some (JString s) => s
      | _ => []
      end
  | _ => []
  end.

Definition membersOf (v : JSON) : list (jsstring * JSON) :=
  match v with
  | JObject m => m
  | _ => []
  end.

(** Modelled from the spec: the merge strategy that concatenates the
    [delta] of each event into a [text] field, which the scenario of
    section 8 names and the source leaves to the package [ai]. *)
Definition concatDelta (state event : JSON) : JSON :=
  JObject (setProperty (lit "text")
             (JString (stringField (lit "text") state
                       ++ stringField (lit "delta") event))
             (membersOf state)).

(** A record made of a prefix and a payload. *)
Definition record (prefix : string) (payload : jsstring) : jsstring :=
  lit prefix ++ payload.

(** Records joined by blank lines. *)
Fixpoint joinRecords (records : list jsstring) : jsstring :=
  match records with
  | [] => []
  | [r] => r
  | r :: rest => r ++ [LF; LF] ++ joinRecords rest
  end.

(** The event whose only member, delta, is the given fragment. *)
Definition deltaPayload (fragment : string) : jsstring :=
  lit "{" ++ quoted "delta" ++ lit ":" ++ quoted fragment ++ lit "}".

(** The stream of the scenario as section 8 writes it, with the prefix
    [A:], and the same stream with the six-character prefix [data: ]. *)
Definition scenarioStream (prefix : string) : jsstring :=
  joinRecords [record prefix (deltaPayload "He");
               record prefix (deltaPayload "llo");
               record prefix DONE].

(** The state a reduction starts from, and the state the scenario ends in:
    the object whose only member, text, is the string Hello. *)
Definition emptyState : JSON := JObject [].

Definition helloState : JSON :=
  JObject [(lit "text", JString (lit "Hello"))].

(** A record that is neither blank nor the sentinel and whose payload is
    not a JSON text. *)
Definition malformed (line : jsstring) : bool :=
  let line := trim line in
  negb (isEmpty line)
  && negb (jsstring_eqb (slice 6 line) DONE)
  && match parseText (slice 6 line) with
     | Some _ => false
     | None => true
     end.

(** The offset, counted in records, of the first malformed record. *)
Fixpoint firstTrue (offset : nat) (flags : list bool) : option nat :=
  match flags with
  | [] => None
  | true :: _ => Some offset
  | false :: rest => firstTrue (S offset) rest
  end.

Definition firstMalformed (content : jsstring) : option nat :=
  firstTrue 0 (map malformed (split [LF; LF] content)).

(** The state the fold has reached after [events], if there is any. *)
Definition finalState {State : Type} (initialState : State)
  (merge : State -> JSON -> State) (events : list JSON) : option State :=
  match events with
  | [] => None
  | _ :: _ => Some (fold_left merge events initialState)
  end.

End Replay.

(* ===================================================================== *)
(** * Second script: comparing two snapshots *)
(* ===================================================================== *)

Module Compare.
Import JS.

(** ** Diff records and the report loop (index.js, lines 52-58) *)

Inductive DiffType : Type := equal | add | remove | modify.

Definition DiffType_eqb (a b : DiffType) : bool :=
  match a, b with
  | equal, equal | add, add | remove, remove | modify, modify => true
  | _, _ => false
  end.

(** The string a type is in the source. *)
Definition typeName (t : DiffType) : jsstring :=
  match t with
  | equal => lit "equal"
  | add => lit "add"
  | remove => lit "remove"
  | modify => lit "modify"
  end.

Record DiffResult : Type := {
  type : DiffType;
  lineNumber : N;
  text : jsstring
}.

Fixpoint digitCodes (d : Decimal.uint) : jsstring :=
  match d with
  | Decimal.Nil => []
  | Decimal.D0 d' => 48%N :: digitCodes d'
  | Decimal.D1 d' => 49%N :: digitCodes d'
  | Decimal.D2 d' => 50%N :: digitCodes d'
  | Decimal.D3 d' => 51%N :: digitCodes d'
  | Decimal.D4 d' => 52%N :: digitCodes d'
  | Decimal.D5 d' => 53%N :: digitCodes d'
  | Decimal.D6 d' => 54%N :: digitCodes d'
  | Decimal.D7 d' => 55%N :: digitCodes d'
  | Decimal.D8 d' => 56%N :: digitCodes d'
  | Decimal.D9 d' => 57%N :: digitCodes d'
  end.

(** A line number in a template literal: its decimal digits, which is
    what a number prints as when it is a natural number below ten to the
    power twenty-one. *)
Definition numberToString (n : N) : jsstring := digitCodes (N.to_uint n).

(** The console: the lines printed so far.  [console.log(a, b)] with two
    strings prints them with one space between. *)
Definition Console : Type := list jsstring.

Definition console_log (a b : jsstring) (console : Console) : Console :=
  console ++ [a ++ lit " " ++ b].

(** [forEach] with a callback that cannot throw. *)
Fixpoint forEachDo {A S : Type} (callback : A -> S -> S) (array : list A)
  (s : S) : S :=
  match array with
  | [] => s
  | x :: rest => forEachDo callback rest (callback x s)
  end.

(** Lines 54-56. *)
Definition onResult (r : DiffResult) (console : Console) : Console :=
  if negb (DiffType_eqb (type r) equal)
  then console_log (numberToString (lineNumber r) ++ lit ":"
                    ++ typeName (type r))
                   (text r) console
  else console.

(** Lines 52-58, for whatever [differ.diff] returned. *)
Definition report (results : list (list DiffResult)) (console : Console)
  : Console :=
  forEachDo (fun res console' => forEachDo onResult res console')
            results console.

(** The records the specification wants printed: those not [equal]. *)
Definition printed (r : DiffResult) : bool :=
  negb (DiffType_eqb (type r) equal).

(** The line the specification asks for: [<lineNumber>:<type> <text>]. *)
Definition reportLine (r : DiffResult) : jsstring :=
  numberToString (lineNumber r) ++ lit ":" ++ typeName (type r)
  ++ lit " " ++ text r.

(** ** The options of the differ (index.js, lines 45-50) *)

Inductive ArrayDiffMethod : Type :=
| normal   (* the positional strategy *)
| lcs.     (* the alignment strategy *)

Record Options : Type := {
  detectCircular : bool;
  maxDepth : option nat;          (* [None] is [Infinity] *)
  showModifications : bool;
  arrayDiffMethod : ArrayDiffMethod
}.

Definition sourceOptions : Options :=
  {| detectCircular := true;
     maxDepth := None;
     showModifications := true;
     arrayDiffMethod := normal |}.

(** ** Deep structural equality of two trees; members are compared in
    order. *)
Fixpoint JSON_eqb (a b : JSON) {struct a} : bool :=
  match a, b with
  | JNull, JNull => true
  | JBool x, JBool y => Bool.eqb x y
  | JNumber x, JNumber y => jsstring_eqb x y
  | JString x, JString y => jsstring_eqb x y
  | JArray xs, JArray ys =>
      (fix all (xs ys : list JSON) : bool :=
         match xs, ys with
         | [], [] => true
         | x :: xs', y :: ys' => JSON_eqb x y && all xs' ys'
         | _, _ => false
         end) xs ys
  | JObject xs, JObject ys =>
      (fix all (xs ys : list (jsstring * JSON)) : bool :=
         match xs, ys with
         | [], [] => true
         | (k, x) :: xs', (k', y) :: ys' =>
             jsstring_eqb k k' && JSON_eqb x y && all xs' ys'
         | _, _ => false
         end) xs ys
  | _, _ => false
  end.

(** The keys of an object are distinct, at every level of the tree. *)
Fixpoint distinctKeys (m : list (jsstring * JSON)) : bool :=
  match m with
  | [] => true
  | (k, _) :: m' =>
      match getProperty k m' with
      | Some _ => false
      | None => distinctKeys m'
      end
  end.

Fixpoint wellFormed (v : JSON) : bool :=
  match v with
  | JArray l => forallb wellFormed l
  | JObject m => distinctKeys m && forallb (fun kv => wellFormed (snd kv)) m
  | _ => true
  end.

(** ** ArrayAligner

    An alignment is a sequence of pairs of optional indices, the left one
    into [left] and the right one into [right].  It is computed as a
    sequence of steps through the two sequences, to which the indices are
    then given. *)
Definition Pairing : Type := (option nat * option nat)%type.

Inductive Step : Type :=
| Keep      (* the two heads are matched *)
| Delete    (* the left head is unmatched *)
| Insert.   (* the right head is unmatched *)

(** The pairs of [steps], [i] and [j] being the indices of the heads. *)
Fixpoint indexed (i j : nat) (steps : list Step) : list Pairing :=
  match steps with
  | [] => []
  | Keep :: rest => (Some i, Some j) :: indexed (S i) (S j) rest
  | Delete :: rest => (Some i, None) :: indexed (S i) j rest
  | Insert :: rest => (None, Some j) :: indexed i (S j) rest
  end.

Definition isKeep (s : Step) : bool :=
  match s with Keep => true | _ => false end.
Definition isDelete (s : Step) : bool :=
  match s with Delete => true | _ => false end.
Definition isInsert (s : Step) : bool :=
  match s with Insert => true | _ => false end.

(** How many elements an alignment matches. *)
Definition matches (steps : list Step) : nat :=
  List.length (filter isKeep steps).

(** Modelled from the spec: the positional strategy of the ArrayAligner
    (section 4.4), which the source takes from the package
    [json-diff-kit].  Index [i] goes with index [i] up to the shorter
    length, and the rest of the longer side is unmatched. *)
Definition positionalSteps (left right : list JSON) : list Step :=
  let n := Nat.min (List.length left) (List.length right) in
  repeat Keep n
  ++ repeat Delete (List.length left - n)
  ++ repeat Insert (List.length right - n).

(** Modelled from the spec: the alignment strategy of the ArrayAligner
    (section 4.4), which the source takes from the package
    [json-diff-kit].  A longest common subsequence under [JSON_eqb]:
    equal heads are matched; otherwise the better of passing over the
    left head and passing over the right head is taken.  The
    specification does not say which of two equally long alignments is
    chosen; here the left head is passed over first. *)
Fixpoint lcsSteps (left : list JSON) {struct left}
  : list JSON -> list Step :=
  fix inner (right : list JSON) {struct right} : list Step :=
    match left with
    | [] => repeat Insert (List.length right)
    | x :: left' =>
        match right with
        | [] => repeat Delete (List.length left)
        | y :: right' =>
            if JSON_eqb x y then Keep :: lcsSteps left' right'
            else
              let skipLeft := Delete :: lcsSteps left' right in
              let skipRight := Insert :: inner right' in
              if matches skipRight <=? matches skipLeft
              then skipLeft else skipRight
        end
    end.

Definition alignmentSteps (method : ArrayDiffMethod)
  (left right : list JSON) : list Step :=
  match method with
  | normal => positionalSteps left right
  | lcs => lcsSteps left right
  end.

(** Modelled from the spec: [align] of the ArrayAligner (section 4.4). *)
Definition align (method : ArrayDiffMethod) (left right : list JSON)
  : list Pairing :=
  indexed 0 0 (alignmentSteps method left right).

(** ** TreeDiffer

    Trees are finite terms, so no tree is cyclic and [detectCircular] has
    nothing to detect.  The records are given as one flat sequence in the
    order of emission; their grouping into comparison units is left
    out. *)

(** The kinds of value the comparison is keyed by. *)
Inductive Kind : Type := KNull | KScalar | KObject | KSequence.

Definition kindOf (v : JSON) : Kind :=
  match v with
  | JNull => KNull
  | JBool _ | JNumber _ | JString _ => KScalar
  | JArray _ => KSequence
  | JObject _ => KObject
  end.

(** What a record reports, before it is numbered and described. *)
Inductive Change : Type :=
| Same (v : JSON)
| Added (v : JSON)
| Removed (v : JSON)
| Modified (old new : JSON).

Definition typeOf (c : Change) : DiffType :=
  match c with
  | Same _ => equal
  | Added _ => add
  | Removed _ => remove
  | Modified _ _ => modify
  end.

(** Depth [depth] exceeds the ceiling. *)
Definition tooDeep (depth : nat) (ceiling : option nat) : bool :=
  match ceiling with
  | Some m => m <? depth
  | None => false
  end.

(** One record that sums up two subtrees without descending. *)
Definition summary (left right : JSON) : list Change :=
  if JSON_eqb left right then [Same left] else [Modified left right].

(** Two values that are not both objects nor both sequences. *)
Definition compareLeaves (o : Options) (left right : JSON) : list Change :=
  match kindOf left, kindOf right with
  | KNull, KNull => [Same left]
  | KScalar, KScalar =>
      if JSON_eqb left right then [Same left]
      else if showModifications o then [Modified left right]
      else [Removed left; Added right]
  | _, _ => [Removed left; Added right]
  end.

(** The members of [right] whose key [left] does not have. *)
Definition newMembers (left right : list (jsstring * JSON))
  : list (jsstring * JSON) :=
  filter (fun kv => match getProperty (fst kv) left with
                    | Some _ => false
                    | None => true
                    end) right.

(** The members of [left], in its order, against [right]; [continue] is
    the comparison one level down. *)
Fixpoint compareMembers (continue : JSON -> JSON -> list Change)
  (right left : list (jsstring * JSON)) : list Change :=
  match left with
  | [] => []
  | (k, v) :: left' =>
      match getProperty k right with
      | Some w => continue v w
      | None => [Removed v]
      end ++ compareMembers continue right left'
  end.

(** The records of one pair of an alignment; [onLeft] holds, for each
    element of the left sequence, the comparison that starts from it. *)
Definition comparePair (onLeft : list (JSON * (JSON -> list Change)))
  (right : list JSON) (p : Pairing) : list Change :=
  match p with
  | (Some i, Some j) =>
      match nth_error onLeft i, nth_error right j with
      | Some (_, continue), Some r => continue r
      | _, _ => []
      end
  | (Some i, None) =>
      match nth_error onLeft i with
      | Some (l, _) => [Removed l]
      | None => []
      end
  | (None, Some j) =>
      match nth_error right j with
      | Some r => [Added r]
      | None => []
      end
  | (None, None) => []
  end.

(** Modelled from the spec: the TreeDiffer of section 4.3, which the
    source takes from the package [json-diff-kit].  Beyond the depth
    ceiling one record sums up the two subtrees.  Two objects are
    compared member by member, the keys of [left] first and in its order,
    then the keys that only [right] has: a key missing on the right is a
    removal, a key missing on the left an addition.  Two sequences are
    aligned by the ArrayAligner and compared pair by pair, an unmatched
    left element being a removal and an unmatched right one an addition.
    Anything else is compared as leaves: equal, modified, or removed and
    added.  The root is at depth 0. *)
Fixpoint compare (o : Options) (depth : nat) (left right : JSON)
  {struct left} : list Change :=
  if tooDeep depth (maxDepth o) then summary left right
  else
    match left, right with
    | JObject lm, JObject rm =>
        compareMembers (fun v w => compare o (S depth) v w) rm lm
        ++ map (fun kv => Added (snd kv)) (newMembers lm rm)
    | JArray ls, JArray rs =>
        flat_map
          (comparePair (map (fun l => (l, compare o (S depth) l)) ls) rs)
          (align (arrayDiffMethod o) ls rs)
    | _, _ => compareLeaves o left right
    end.

Section Records.

(** The human-readable description of a change is left open by the
    specification. *)
Variable describe : Change -> jsstring.

(** A running line counter, incremented once per record. *)
Fixpoint numbered (n : N) (changes : list Change) : list DiffResult :=
  match changes with
  | [] => []
  | c :: rest =>
      {| type := typeOf c; lineNumber := n; text := describe c |}
      :: numbered (N.succ n) rest
  end.

(** Modelled from the spec: [diff] of the TreeDiffer (section 4.3), the
    records numbered from 1 in the order of emission. *)
Definition diff (o : Options) (left right : JSON) : list DiffResult :=
  numbered 1 (compare o 0 left right).

End Records.

(** How many records of a type a result holds. *)
Definition count (t : DiffType) (results : list DiffResult) : nat :=
  List.length (filter (fun r => DiffType_eqb (type r) t) results).

(** The role a type takes when left and right are swapped. *)
Definition swapped (t : DiffType) : DiffType :=
  match t with
  | add => remove
  | remove => add
  | equal => equal
  | modify => modify
  end.

(** [s] with [e] inserted at index [at_]. *)
Definition insertAt (at_ : nat) (e : JSON) (s : list JSON) : list JSON :=
  firstn at_ s ++ e :: skipn at_ s.

Definition num (digits : string) : JSON := JNumber (lit digits).

(** A description to run the differ with: the name of the type. *)
Definition describeByType (c : Change) : jsstring := typeName (typeOf c).

(** The options of the source with the alignment strategy instead. *)
Definition lcsOptions : Options :=
  {| detectCircular := true;
     maxDepth := None;
     showModifications := true;
     arrayDiffMethod := lcs |}.

(** Two snapshots to run the differ on. *)
Definition sampleLeft : JSON :=
  JObject [(lit "text", JString (lit "Hello"));
           (lit "parts", JArray [num "1"; num "2"; JNull])].

Definition sampleRight : JSON :=
  JObject [(lit "parts", JArray [num "1"; JBool true]);
           (lit "text", JString (lit "Hallo"));
           (lit "done", JBool true)].

(** ** Readings without indices, for the proofs *)

(** How many changes of a type a sequence holds. *)
Definition countChanges (t : DiffType) (changes : list Change) : nat :=
  List.length (filter (fun c => DiffType_eqb (typeOf c) t) changes).

(** Every change is [Same]. *)
Definition allSame (changes : list Change) : Prop :=
  Forall (fun c => typeOf c = equal) changes.

(** The changes of a sequence of steps played on the two sequences. *)
Fixpoint play (continue : JSON -> JSON -> list Change) (steps : list Step)
  (left right : list JSON) : list Change :=
  match steps with
  | [] => []
  | Keep :: rest =>
      match left, right with
      | l :: left', r :: right' =>
          continue l r ++ play continue rest left' right'
      | _, _ => []
      end
  | Delete :: rest =>
      match left with
      | l :: left' => Removed l :: play continue rest left' right
      | [] => []
      end
  | Insert :: rest =>
      match right with
      | r :: right' => Added r :: play continue rest left right'
      | [] => []
      end
  end.

(** Index by index, then what is left of the longer side. *)
Fixpoint zipCompare (continue : JSON -> JSON -> list Change)
  (left right : list JSON) : list Change :=
  match left, right with
  | [], _ => map Added right
  | _, [] => map Removed left
  | l :: left', r :: right' =>
      continue l r ++ zipCompare continue left' right'
  end.

(** The sum of [h v w] over the members [(k, v)] of [this] whose key has
    the value [w] in [other]. *)
Fixpoint sumMatched (h : JSON -> JSON -> nat)
  (other this : list (jsstring * JSON)) : nat :=
  match this with
  | [] => 0
  | (k, v) :: rest =>
      match getProperty k other with
      | Some w => h v w
      | None => 0
      end + sumMatched h other rest
  end.

(** One when the two types are the same, zero otherwise. *)
Definition indicator (t u : DiffType) : nat :=
  if DiffType_eqb t u then 1 else 0.

(** Neither two sequences nor two objects. *)
Definition leafPair (l r : JSON) : Prop :=
  match l, r with
  | JArray _, JArray _ | JObject _, JObject _ => False
  | _, _ => True
  end.

(** [steps] go through exactly [nl] left and [nr] right elements. *)
Definition covers (steps : list Step) (nl nr : nat) : Prop :=
  List.length (filter isKeep steps) + List.length (filter isDelete steps)
  = nl
  /\ List.length (filter isKeep steps) + List.length (filter isInsert steps)
     = nr.

(** Every [Keep] of [steps] pairs two identical elements, and the steps
    do not run past the end of either sequence. *)
Fixpoint keepsIdentical (steps : list Step) (left right : list JSON)
  : Prop :=
  match steps with
  | [] => True
  | Keep :: rest =>
      match left, right with
      | l :: left', r :: right' => l = r /\ keepsIdentical rest left' right'
      | _, _ => False
      end
  | Delete :: rest =>
      match left with
      | _ :: left' => keepsIdentical rest left' right
      | [] => False
      end
  | Insert :: rest =>
      match right with
      | _ :: right' => keepsIdentical rest left right'
      | [] => False
      end
  end.

(** [a] is [b] with some elements left out. *)
Inductive Subsequence : list JSON -> list JSON -> Prop :=
| sub_nil : forall b, Subsequence [] b
| sub_take : forall x a b, Subsequence a b -> Subsequence (x :: a) (x :: b)
| sub_skip : forall y a b, Subsequence a b -> Subsequence a (y :: b).

End Compare.

(* ===================================================================== *)
(** * The second script as a whole, and notions for further properties *)
(* ===================================================================== *)

Module Scripts.
Import JS Replay Compare.

(** [sep] occurs somewhere in [s]. *)
Fixpoint occurs (sep s : jsstring) : bool :=
  match s with
  | [] => startsWith sep []
  | _ :: s' => startsWith sep s || occurs sep s'
  end.

(** Made of white space only, as [trim] sees it and as JSON sees it. *)
Definition allWhiteSpace (w : jsstring) : bool := forallb isWhiteSpace w.
Definition allJSONWhiteSpace (w : jsstring) : bool :=
  forallb isJSONWhiteSpace w.

(** The second script (index.js, lines 38-58): the two snapshots are
    read with [JSON.parse], the standard one first, handed to
    [differ.diff], and the result is reported.  [differ] stands for the
    [Differ] of the package [json-diff-kit] with the options of lines
    45-50. *)
Definition compareScript (differ : JSON -> JSON -> list (list DiffResult))
  (standardText resultText : jsstring) (console : Console)
  : Completion Console :=
  standard <- JSON_parse standardText ;;
  result <- JSON_parse resultText ;;
  Normal (report (differ standard result) console).

(** Every record of a result is of type [equal]. *)
Definition onlyEqual (results : list (list DiffResult)) : Prop :=
  Forall (Forall (fun r => type r = equal)) results.

End Scripts.

(* ===================================================================== *)
(** * The budget of the JSON parser *)
(* ===================================================================== *)

Module JSFacts.
Import JS.

Lemma skipWhiteSpace_length (s : jsstring) :
  List.length (skipWhiteSpace s) <= List.length s.
Proof.
  induction s as [|c s IH]; simpl; [lia|].
  destruct (isJSONWhiteSpace c); simpl; lia.
Qed.

Lemma skipWhiteSpace_cons (s r : jsstring) (c : N) :
  skipWhiteSpace s = c :: r -> List.length r < List.length s.
Proof.
  intros H. pose proof (skipWhiteSpace_length s) as Hl.
  rewrite H in Hl. simpl in Hl. lia.
Qed.

Lemma digits_length (s : jsstring) :
  List.length (snd (digits s)) <= List.length s.
Proof.
  induction s as [|c s IH]; simpl; [lia|].
  destruct (isDigit c); [|simpl; lia].
  destruct (digits s) as [d r]. simpl in *. lia.
Qed.

Lemma digits_rest (s d r : jsstring) :
  digits s = (d, r) -> List.length r <= List.length s.
Proof.
  intros H. pose proof (digits_length s) as Hl. now rewrite H in Hl.
Qed.

Lemma parseInt_length (s i r : jsstring) :
  parseInt s = Some (i, r) -> List.length r < List.length s.
Proof.
  unfold parseInt. destruct s as [|c s]; [discriminate|].
  destruct (c =? 48)%N.
  - intros H. injection H as _ <-. simpl. lia.
  - destruct (isDigit c); [|discriminate].
    destruct (digits s) as [d r'] eqn:Hd. intros H. injection H as _ <-.
    apply digits_rest in Hd. simpl. lia.
Qed.

Lemma parseFraction_length (s f r : jsstring) :
  parseFraction s = Some (f, r) -> List.length r <= List.length s.
Proof.
  unfold parseFraction. destruct s as [|c s].
  - intros H. injection H as _ <-. lia.
  - destruct (c =? 46)%N.
    + destruct (digits s) as [d r'] eqn:Hd. apply digits_rest in Hd.
      destruct d; [discriminate|]. intros H. injection H as _ <-.
      simpl. lia.
    + intros H. injection H as _ <-. lia.
Qed.

Lemma parseExponent_length (s e r : jsstring) :
  parseExponent s = Some (e, r) -> List.length r <= List.length s.
Proof.
  unfold parseExponent. destruct s as [|c s].
  - intros H. injection H as _ <-. lia.
  - destruct ((c =? 101) || (c =? 69))%N.
    + assert (Hsign : forall sign r1,
        match s with
        | c' :: r' =>
            if ((c' =? 43) || (c' =? 45))%N then ([c'], r') else ([], s)
        | [] => ([], s)
        end = (sign, r1) -> List.length r1 <= List.length s).
      { intros sign r1. destruct s as [|c' s'].
        - intros H. injection H as _ <-. lia.
        - destruct ((c' =? 43) || (c' =? 45))%N; intros H;
            injection H as _ <-; simpl; lia. }
      destruct (match s with
                | c' :: r' =>
                    if ((c' =? 43) || (c' =? 45))%N
                    then ([c'], r') else ([], s)
                | [] => ([], s)
                end) as [sign r1] eqn:Hs.
      specialize (Hsign sign r1 eq_refl).
      destruct (digits r1) as [d r2] eqn:Hd. apply digits_rest in Hd.
      destruct d; [discriminate|]. intros H. injection H as _ <-.
      simpl. lia.
    + intros H. injection H as _ <-. lia.
Qed.

Lemma parseNumber_length (s n r : jsstring) :
  parseNumber s = Some (n, r) -> List.length r < List.length s.
Proof.
  unfold parseNumber.
  assert (Hsign : forall sign s1,
    (sign, s1) = match s with
                 | c :: r0 => if (c =? 45)%N then ([c], r0) else ([], s)
                 | [] => ([], s)
                 end -> List.length s1 <= List.length s).
  { intros sign s1. destruct s as [|c s']; [intros H; now injection H as _ ->|].
    destruct (c =? 45)%N; intros H; injection H as _ ->; simpl; lia. }
  destruct (match s with
            | c :: r0 => if (c =? 45)%N then ([c], r0) else ([], s)
            | [] => ([], s)
            end) as [sign s1] eqn:Hs.
  specialize (Hsign sign s1 eq_refl).
  destruct (parseInt s1) as [[i s2]|] eqn:Hi; [|discriminate].
  destruct (parseFraction s2) as [[f s3]|] eqn:Hf; [|discriminate].
  destruct (parseExponent s3) as [[e s4]|] eqn:He; [|discriminate].
  intros H. injection H as _ <-.
  apply parseInt_length in Hi. apply parseFraction_length in Hf.
  apply parseExponent_length in He. lia.
Qed.

Lemma consChar_length (c : N) (p : option (jsstring * jsstring))
  (str r : jsstring) :
  consChar c p = Some (str, r) -> exists str', p = Some (str', r).
Proof.
  destruct p as [[str' r']|]; simpl; [|discriminate].
  intros H. injection H as _ <-. eauto.
Qed.

Lemma parseStringBody_length (s str r : jsstring) :
  parseStringBody s = Some (str, r) -> List.length r < List.length s.
Proof.
  remember (List.length s) as n eqn:Hn. revert s str r Hn.
  induction n as [n IH] using lt_wf_ind. intros s str r Hn H.
  destruct s as [|c s1]; [discriminate|]. simpl in H. subst n.
  destruct (c =? 34)%N; [injection H as _ <-; simpl; lia|].
  destruct (c =? 92)%N.
  - destruct s1 as [|e s2]; [discriminate|].
    destruct (e =? 117)%N.
    + destruct s2 as [|h1 [|h2 [|h3 [|h4 s6]]]]; try discriminate.
      destruct (hexValue h1), (hexValue h2), (hexValue h3), (hexValue h4);
        try discriminate.
      apply consChar_length in H as [str' H].
      apply (IH (List.length s6)) in H; simpl; [lia | lia | reflexivity].
    + destruct (simpleEscape e); [|discriminate].
      apply consChar_length in H as [str' H].
      apply (IH (List.length s2)) in H; simpl; [lia | lia | reflexivity].
  - destruct (c <? 32)%N; [discriminate|].
    apply consChar_length in H as [str' H].
    apply (IH (List.length s1)) in H; simpl; [lia | lia | reflexivity].
Qed.

(** Facts on the lengths of what the hypotheses say was left over. *)
Ltac lengths :=
  repeat match goal with
    | H : skipWhiteSpace _ = _ :: _ |- _ => apply skipWhiteSpace_cons in H
    | H : parseStringBody _ = Some _ |- _ => apply parseStringBody_length in H
    | H : parseNumber _ = Some _ |- _ => apply parseNumber_length in H
    end.

Ltac split_matches :=
  repeat match goal with
    | |- context [match ?x with _ => _ end] => destruct x eqn:?
    | |- context [if ?b then _ else _] => destruct b eqn:?
    end.

(** Every parser leaves over less than it was given. *)
Lemma parse_consumes (fuel : nat) :
  (forall s v r, parseValue fuel s = Accept v r ->
                 List.length r < List.length s)
  /\ (forall s acc v r, parseElements fuel s acc = Accept v r ->
                        List.length r < List.length s)
  /\ (forall s acc v r, parseMembers fuel s acc = Accept v r ->
                        List.length r < List.length s).
Proof.
  induction fuel as [|fuel (IHv & IHe & IHm)];
    [repeat split; intros; discriminate|].
  split; [|split].
  - intros s v r H. cbn [parseValue parseElements parseMembers] in H.
    destruct (skipWhiteSpace s) as [|c r0] eqn:Hs; [discriminate|].
    pose proof (skipWhiteSpace_length s) as Hlen. rewrite Hs in Hlen.
    simpl in Hlen.
    destruct (c =? 123)%N.
    { destruct (skipWhiteSpace r0) as [|c' r'] eqn:Hr; [discriminate|].
      destruct (c' =? 125)%N.
      - injection H as _ <-. lengths. lia.
      - apply IHm in H. lia. }
    destruct (c =? 91)%N.
    { destruct (skipWhiteSpace r0) as [|c' r'] eqn:Hr; [discriminate|].
      destruct (c' =? 93)%N.
      - injection H as _ <-. lengths. lia.
      - apply IHe in H. lia. }
    destruct (c =? 34)%N.
    { destruct (parseStringBody r0) as [[str r']|] eqn:Hb; [|discriminate].
      injection H as _ <-. lengths. lia. }
    destruct (startsWith (lit "true") (c :: r0)).
    { assert (Hr : r = skipn 4 (c :: r0)) by congruence.
      rewrite Hr, length_skipn. simpl List.length. lia. }
    destruct (startsWith (lit "false") (c :: r0)).
    { assert (Hr : r = skipn 5 (c :: r0)) by congruence.
      rewrite Hr, length_skipn. simpl List.length. lia. }
    destruct (startsWith (lit "null") (c :: r0)).
    { assert (Hr : r = skipn 4 (c :: r0)) by congruence.
      rewrite Hr, length_skipn. simpl List.length. lia. }
    destruct (parseNumber (c :: r0)) as [[n r']|] eqn:Hn; [|discriminate].
    injection H as _ <-. lengths. simpl in *. lia.
  - intros s acc v r H. cbn [parseValue parseElements parseMembers] in H.
    destruct (parseValue fuel s) as [v0 r0| |] eqn:Hv; try discriminate.
    apply IHv in Hv.
    destruct (skipWhiteSpace r0) as [|c r'] eqn:Hr; [discriminate|].
    lengths.
    destruct (c =? 44)%N; [apply IHe in H; lia|].
    destruct (c =? 93)%N; [|discriminate].
    injection H as _ <-. lia.
  - intros s acc v r H. cbn [parseValue parseElements parseMembers] in H.
    destruct (skipWhiteSpace s) as [|q r0] eqn:Hs; [discriminate|].
    destruct (q =? 34)%N; [|discriminate].
    destruct (parseStringBody r0) as [[k r1]|] eqn:Hb; [|discriminate].
    destruct (skipWhiteSpace r1) as [|colon r2] eqn:Hc; [discriminate|].
    destruct (colon =? 58)%N; [|discriminate].
    destruct (parseValue fuel r2) as [v0 r3| |] eqn:Hv; try discriminate.
    apply IHv in Hv.
    destruct (skipWhiteSpace r3) as [|c r4] eqn:Hr; [discriminate|].
    lengths.
    destruct (c =? 44)%N; [apply IHm in H; lia|].
    destruct (c =? 125)%N; [|discriminate].
    injection H as _ <-. lia.
Qed.

(** With twice the length of the text, and one or two more, the budget
    never runs out. *)
Lemma parse_budget (fuel : nat) :
  (forall s, 2 * List.length s + 1 <= fuel -> parseValue fuel s <> Starved)
  /\ (forall s acc, 2 * List.length s + 2 <= fuel ->
                    parseElements fuel s acc <> Starved)
  /\ (forall s acc, 2 * List.length s + 2 <= fuel ->
                    parseMembers fuel s acc <> Starved).
Proof.
  induction fuel as [|fuel (IHv & IHe & IHm)];
    [repeat split; intros; lia|].
  split; [|split].
  - intros s Hf. cbn [parseValue parseElements parseMembers].
    destruct (skipWhiteSpace s) as [|c r0] eqn:Hs; [discriminate|].
    apply skipWhiteSpace_cons in Hs.
    destruct (c =? 123)%N.
    { destruct (skipWhiteSpace r0) as [|c' r'] eqn:Hr; [discriminate|].
      destruct (c' =? 125)%N; [discriminate|]. apply IHm. lia. }
    destruct (c =? 91)%N.
    { destruct (skipWhiteSpace r0) as [|c' r'] eqn:Hr; [discriminate|].
      destruct (c' =? 93)%N; [discriminate|]. apply IHe. lia. }
    split_matches; discriminate.
  - intros s acc Hf. cbn [parseValue parseElements parseMembers].
    destruct (parseValue fuel s) as [v0 r0| |] eqn:Hv;
      [|discriminate|exfalso; revert Hv; apply IHv; lia].
    apply (proj1 (parse_consumes fuel)) in Hv.
    destruct (skipWhiteSpace r0) as [|c r'] eqn:Hr; [discriminate|].
    lengths.
    destruct (c =? 44)%N; [apply IHe; lia|].
    destruct (c =? 93)%N; discriminate.
  - intros s acc Hf. cbn [parseValue parseElements parseMembers].
    destruct (skipWhiteSpace s) as [|q r0] eqn:Hs; [discriminate|].
    destruct (q =? 34)%N; [|discriminate].
    destruct (parseStringBody r0) as [[k r1]|] eqn:Hb; [|discriminate].
    destruct (skipWhiteSpace r1) as [|colon r2] eqn:Hc; [discriminate|].
    destruct (colon =? 58)%N; [|discriminate].
    lengths.
    destruct (parseValue fuel r2) as [v0 r3| |] eqn:Hv;
      [|discriminate|exfalso; revert Hv; apply IHv; lia].
    apply (proj1 (parse_consumes fuel)) in Hv.
    destruct (skipWhiteSpace r3) as [|c r4] eqn:Hr; [discriminate|].
    lengths.
    destruct (c =? 44)%N; [apply IHm; lia|].
    destruct (c =? 125)%N; discriminate.
Qed.

(** [parseText] never answers [None] for want of budget: it does so only
    when the text is rejected or something follows the value. *)
Lemma parseText_budget (text : jsstring) :
  parseValue (2 * List.length text + 1) text <> Starved.
Proof. apply (proj1 (parse_budget _)). lia. Qed.

End JSFacts.

(* ===================================================================== *)
(** * Properties of the first script *)
(* ===================================================================== *)

Module ReplayFacts.
Import JS Replay.

Lemma forEach_app {A S : Type} (f : A -> S -> Completion S)
  (l1 l2 : list A) (s : S) :
  forEach f (l1 ++ l2) s = bind (forEach f l1 s) (forEach f l2).
Proof.
  revert s. induction l1 as [|x l1 IH]; intros s; simpl.
  - reflexivity.
  - destruct (f x s) as [s'|e]; simpl; [apply IH | reflexivity].
Qed.

(** The callback handles a record as the specification words it. *)
Lemma onLine_deliver (line : jsstring) (c : Controller) :
  onLine line c =
  if isEmpty (trim line) then Normal c else deliver (toFrame (trim line)) c.
Proof.
  unfold onLine, toFrame.
  destruct (isEmpty (trim line)); [reflexivity|].
  destruct (jsstring_eqb (slice 6 (trim line)) DONE); reflexivity.
Qed.

Lemma forEach_onLine_frames (lines : list jsstring) (c : Controller) :
  forEach onLine lines c =
  forEach deliver
    (map toFrame (filter (fun r => negb (isEmpty r)) (map trim lines))) c.
Proof.
  revert c. induction lines as [|line lines IH]; intros c; simpl.
  - reflexivity.
  - rewrite onLine_deliver.
    destruct (isEmpty (trim line)); simpl.
    + apply IH.
    + destruct (deliver (toFrame (trim line)) c); simpl;
        [apply IH | reflexivity].
Qed.

Lemma start_frames (content : jsstring) (c : Controller) :
  start content c = forEach deliver (frames content) c.
Proof. apply forEach_onLine_frames. Qed.

(** Payloads that all parse are enqueued in order on an open controller. *)
Lemma deliver_payloads (payloads : list jsstring) (events : list JSON) :
  map parseText payloads = map Some events ->
  forall q,
    forEach deliver (map Payload payloads)
      {| queue := q; closeRequested := false |}
    = Normal {| queue := q ++ events; closeRequested := false |}.
Proof.
  revert events.
  induction payloads as [|p ps IH]; intros [|ev evs] H q;
    simpl in H; try discriminate.
  - simpl. now rewrite app_nil_r.
  - injection H as Hp Hps. simpl.
    unfold JSON_parse. rewrite Hp. simpl. unfold enqueue. simpl.
    rewrite (IH evs Hps). now rewrite <- app_assoc.
Qed.

(** A closed controller accepts no further frame. *)
Lemma deliver_closed (f : Frame) (fs : list Frame) (c : Controller) :
  closeRequested c = true ->
  exists e, forEach deliver (f :: fs) c = Throw e.
Proof.
  intros Hc. simpl. destruct f as [|p]; simpl.
  - unfold close. rewrite Hc. simpl. eauto.
  - unfold JSON_parse. destruct (parseText p); simpl.
    + unfold enqueue. rewrite Hc. simpl. eauto.
    + eauto.
Qed.

(** What the frames must have been when [start] went through. *)
Lemma deliver_normal (fs : list Frame) (c0 c : Controller) :
  closeRequested c0 = false ->
  forEach deliver fs c0 = Normal c ->
  exists payloads events,
    fs = map Payload payloads
         ++ (if closeRequested c then [Terminal] else [])
    /\ map parseText payloads = map Some events
    /\ queue c = queue c0 ++ events.
Proof.
  revert c0. induction fs as [|f fs IH]; intros c0 Hopen H.
  - simpl in H. injection H as <-. exists [], []. rewrite Hopen.
    simpl. now rewrite app_nil_r.
  - destruct f as [|p].
    + simpl in H. unfold close in H. rewrite Hopen in H. simpl in H.
      destruct fs as [|f' fs'].
      * simpl in H. injection H as <-. exists [], []. simpl.
        now rewrite app_nil_r.
      * destruct (deliver_closed f' fs'
                    {| queue := queue c0; closeRequested := true |}
                    eq_refl) as [e He].
        rewrite He in H. discriminate.
    + simpl in H. unfold JSON_parse in H.
      destruct (parseText p) as [chunk|] eqn:Hp; simpl in H;
        [|discriminate].
      unfold enqueue in H. rewrite Hopen in H. simpl in H.
      destruct (IH {| queue := queue c0 ++ [chunk];
                      closeRequested := false |} eq_refl H)
        as (ps & evs & Hfs & Hparse & Hq).
      exists (p :: ps), (chunk :: evs). simpl in *.
      rewrite Hfs, Hp, Hparse, Hq, <- app_assoc. auto.
Qed.

Section ReducerFacts.

Variable State : Type.
Variable initialState : State.
Variable merge : State -> JSON -> State.

Lemma last_cons_default {A : Type} (x : A) (l : list A) (d d' : A) :
  List.last (x :: l) d = List.last (x :: l) d'.
Proof.
  revert x. induction l as [|y l IH]; intros x; [reflexivity|].
  change (List.last (y :: l) d = List.last (y :: l) d'). apply IH.
Qed.

Lemma readerLoop_closed (queued : list State) (last : option State) :
  readerLoop State queued true last
  = Returns (List.last (map Some queued) last).
Proof.
  revert last. induction queued as [|v q IH]; intros last.
  - reflexivity.
  - simpl readerLoop. rewrite IH. destruct q as [|w q]; [reflexivity|].
    f_equal. simpl map.
    change (List.last (Some v :: Some w :: map Some q) last)
      with (List.last (Some w :: map Some q) last).
    apply last_cons_default.
Qed.

Lemma readerLoop_open (queued : list State) (last : option State) :
  readerLoop State queued false last = NeverSettles.
Proof.
  revert last. induction queued as [|v q IH]; intros last; simpl; auto.
Qed.

Lemma last_snapshots (events : list JSON) (state : State) :
  List.last (map Some (snapshots State merge state events)) None
  = finalState state merge events.
Proof.
  destruct events as [|ev evs]; [reflexivity|].
  unfold finalState. simpl fold_left. simpl snapshots.
  generalize (merge state ev) as st. clear state ev.
  induction evs as [|ev evs IH]; intros st.
  - reflexivity.
  - simpl snapshots. simpl fold_left. rewrite <- (IH (merge st ev)).
    simpl. reflexivity.
Qed.

(** The loop on a stream that [start] left closed, and on one it left
    open. *)
Lemma lastSnapshot_of_stream (content : jsstring) (events : list JSON)
  (isClosed : bool) :
  newReadableStream content
  = Normal {| chunks := events; closed := isClosed |} ->
  lastSnapshot State initialState merge content
  = if isClosed then Returns (finalState initialState merge events)
    else NeverSettles.
Proof.
  intros H. unfold lastSnapshot. rewrite H. simpl.
  destruct isClosed.
  - rewrite readerLoop_closed. now rewrite last_snapshots.
  - apply readerLoop_open.
Qed.

Lemma lastSnapshot_throw (content : jsstring) (e : Exception) :
  newReadableStream content = Throw e ->
  lastSnapshot State initialState merge content = Throws e.
Proof. intros H. unfold lastSnapshot. now rewrite H. Qed.

Lemma main_throw (content : jsstring) (e : Exception) :
  lastSnapshot State initialState merge content = Throws e ->
  main State initialState merge content = Throws e.
Proof. intros H. unfold main. now rewrite H. Qed.

End ReducerFacts.

Lemma newReadableStream_frames (content : jsstring) :
  newReadableStream content
  = (controller <- forEach deliver (frames content) newController ;;
     Normal {| chunks := queue controller;
               closed := closeRequested controller |}).
Proof. unfold newReadableStream. now rewrite start_frames. Qed.

Lemma stream_of_payloads (content : jsstring) (payloads : list jsstring)
  (events : list JSON) :
  frames content = map Payload payloads ->
  map parseText payloads = map Some events ->
  newReadableStream content = Normal {| chunks := events; closed := false |}.
Proof.
  intros Hf Hp. rewrite newReadableStream_frames, Hf.
  unfold newController. now rewrite (deliver_payloads _ _ Hp).
Qed.

Lemma stream_of_terminated (content : jsstring) (payloads : list jsstring)
  (events : list JSON) :
  frames content = map Payload payloads ++ [Terminal] ->
  map parseText payloads = map Some events ->
  newReadableStream content = Normal {| chunks := events; closed := true |}.
Proof.
  intros Hf Hp. rewrite newReadableStream_frames, Hf, forEach_app.
  unfold newController. now rewrite (deliver_payloads _ _ Hp).
Qed.

End ReplayFacts.

Module ReplayTheorems.
Import JS Replay ReplayFacts.

Lemma onLine_malformed (line : jsstring) (c : Controller) :
  malformed line = true ->
  onLine line c = Throw (SyntaxError (slice 6 (trim line))).
Proof.
  unfold malformed, onLine. intros H.
  destruct (isEmpty (trim line)); [discriminate|].
  destruct (jsstring_eqb (slice 6 (trim line)) DONE); [discriminate|].
  unfold JSON_parse.
  destruct (parseText (slice 6 (trim line))); [discriminate|reflexivity].
Qed.

(** On an open controller and without a sentinel, only a payload that is
    not a JSON text can make [start] throw. *)
Lemma deliver_throw_open (fs : list Frame) (c0 : Controller)
  (e : Exception) :
  closeRequested c0 = false ->
  ~ In Terminal fs ->
  forEach deliver fs c0 = Throw e ->
  exists p, In (Payload p) fs /\ parseText p = None /\ e = SyntaxError p.
Proof.
  revert c0. induction fs as [|f fs IH]; intros c0 Hopen Hno H.
  - discriminate.
  - destruct f as [|p]; [exfalso; apply Hno; now left|].
    simpl in H. unfold JSON_parse in H.
    destruct (parseText p) as [chunk|] eqn:Hp; simpl in H.
    + unfold enqueue in H. rewrite Hopen in H. simpl in H.
      destruct (IH {| queue := queue c0 ++ [chunk];
                      closeRequested := false |} eq_refl
                  (fun Hin => Hno (or_intror Hin)) H)
        as (q & Hin & Hq & He).
      exists q. split; [now right | auto].
    + injection H as <-. exists p. split; [now left | auto].
Qed.

Lemma deliver_after_sentinel (before after : list Frame) :
  after <> [] ->
  exists e,
    forEach deliver (before ++ Terminal :: after) newController = Throw e.
Proof.
  intros Hafter. rewrite forEach_app.
  destruct (forEach deliver before newController) as [c1|e]; simpl;
    [|eauto].
  unfold close. destruct (closeRequested c1); simpl; [eauto|].
  destruct after as [|f fs]; [contradiction|].
  apply deliver_closed. reflexivity.
Qed.

(** Frames without a sentinel are payloads that are all JSON texts, or
    have a first payload that is not one. *)
Lemma payload_frames_cases (fs : list Frame) :
  ~ In Terminal fs ->
  (exists payloads events,
      fs = map Payload payloads
      /\ map parseText payloads = map Some events)
  \/ (exists payloads events p after,
        fs = map Payload payloads ++ Payload p :: after
        /\ map parseText payloads = map Some events
        /\ parseText p = None).
Proof.
  induction fs as [|f fs IH]; intros Hno.
  - left. exists [], []. auto.
  - destruct f as [|q]; [exfalso; apply Hno; now left|].
    destruct (parseText q) as [v|] eqn:Hq.
    + destruct (IH (fun Hin => Hno (or_intror Hin)))
        as [(ps & evs & -> & Hp)|(ps & evs & p & after & -> & Hp & Hn)].
      * left. exists (q :: ps), (v :: evs). simpl. now rewrite Hq, Hp.
      * right. exists (q :: ps), (v :: evs), p, after. simpl.
        now rewrite Hq, Hp.
    + right. exists [], [], q, fs. auto.
Qed.

(** The first payload that is not a JSON text, reached through payloads
    that are, makes the construction of the stream throw its
    [SyntaxError]. *)
Lemma first_malformed_throws (content : jsstring)
  (payloads : list jsstring) (events : list JSON) (p : jsstring)
  (after : list Frame) :
  frames content = map Payload payloads ++ Payload p :: after ->
  map parseText payloads = map Some events ->
  parseText p = None ->
  newReadableStream content = Throw (SyntaxError p).
Proof.
  intros Hf Hp Hn. rewrite newReadableStream_frames, Hf, forEach_app.
  unfold newController. rewrite (deliver_payloads _ _ Hp). simpl.
  unfold JSON_parse. rewrite Hn. reflexivity.
Qed.

Section Reduction.

Variable State : Type.
Variable initialState : State.
Variable merge : State -> JSON -> State.

Local Abbreviation lastSnapshot := (lastSnapshot State initialState merge).
Local Abbreviation main := (main State initialState merge).

(** C1.  The parser of the source does what the specification says of the
    EventFrameParser: [start] is the delivery, in order, of the frames
    obtained by cutting the text at blank lines, trimming the records,
    dropping the empty ones, removing the first six code units of each
    and telling the sentinel [[DONE]] from a JSON payload; the sentinel
    closes the stream and every other payload is enqueued as the value
    [JSON.parse] gives.  So when the payloads are JSON texts the stream
    holds their values in the order of the records, closed if the
    sentinel ends the frames and open if there is none. *)
Theorem start_delivers_frames (content : jsstring) :
  (forall controller,
      start content controller = forEach deliver (frames content) controller)
  /\ (forall payloads events,
         frames content = map Payload payloads ->
         map parseText payloads = map Some events ->
         newReadableStream content
         = Normal {| chunks := events; closed := false |})
  /\ (forall payloads events,
         frames content = map Payload payloads ++ [Terminal] ->
         map parseText payloads = map Some events ->
         newReadableStream content
         = Normal {| chunks := events; closed := true |}).
Proof.
  split; [|split].
  - apply start_frames.
  - apply stream_of_payloads.
  - apply stream_of_terminated.
Qed.

(** C3, as amended.  When no frame is the sentinel, the reduction returns
    no final state and nothing is written.  When every payload is a JSON
    text the read that follows the last queued snapshot stays pending for
    ever.  Otherwise the [SyntaxError] of the first payload that is not a
    JSON text is thrown: by the construction of the stream, hence by the
    reduction and by the script.  One of the two is always the case, and
    no other error is ever raised. *)
Theorem missing_sentinel_never_returns (content : jsstring) :
  ~ In Terminal (frames content) ->
  (forall last, lastSnapshot content <> Returns last)
  /\ (forall written, main content <> Returns written)
  /\ ((forall p, In (Payload p) (frames content) -> parseText p <> None) ->
      lastSnapshot content = NeverSettles /\ main content = NeverSettles)
  /\ (forall e, lastSnapshot content = Throws e ->
        exists p, In (Payload p) (frames content)
                  /\ parseText p = None /\ e = SyntaxError p)
  /\ (forall payloads events p after,
        frames content = map Payload payloads ++ Payload p :: after ->
        map parseText payloads = map Some events ->
        parseText p = None ->
        newReadableStream content = Throw (SyntaxError p)
        /\ lastSnapshot content = Throws (SyntaxError p)
        /\ main content = Throws (SyntaxError p))
  /\ ((exists payloads events,
          frames content = map Payload payloads
          /\ map parseText payloads = map Some events
          /\ lastSnapshot content = NeverSettles
          /\ main content = NeverSettles)
      \/ (exists payloads events p after,
            frames content = map Payload payloads ++ Payload p :: after
            /\ map parseText payloads = map Some events
            /\ parseText p = None
            /\ lastSnapshot content = Throws (SyntaxError p)
            /\ main content = Throws (SyntaxError p))).
Proof.
  intros Hno.
  assert (Hthrow : forall payloads events p after,
    frames content = map Payload payloads ++ Payload p :: after ->
    map parseText payloads = map Some events ->
    parseText p = None ->
    newReadableStream content = Throw (SyntaxError p)
    /\ lastSnapshot content = Throws (SyntaxError p)
    /\ main content = Throws (SyntaxError p)).
  { intros ps evs p after Hf Hp Hn.
    pose proof (first_malformed_throws content ps evs p after Hf Hp Hn)
      as Hs.
    split; [exact Hs|]. split.
    - now apply lastSnapshot_throw.
    - now apply main_throw, lastSnapshot_throw. }
  assert (Hhang : forall payloads events,
    frames content = map Payload payloads ->
    map parseText payloads = map Some events ->
    lastSnapshot content = NeverSettles /\ main content = NeverSettles).
  { intros ps evs Hf Hp.
    assert (Hl : lastSnapshot content = NeverSettles).
    { rewrite (lastSnapshot_of_stream State initialState merge content
                 evs false); [reflexivity|].
      now apply (stream_of_payloads content ps evs). }
    split; [exact Hl|]. unfold Replay.main. now rewrite Hl. }
  assert (Hcases :
    (exists payloads events,
        frames content = map Payload payloads
        /\ map parseText payloads = map Some events
        /\ lastSnapshot content = NeverSettles
        /\ main content = NeverSettles)
    \/ (exists payloads events p after,
          frames content = map Payload payloads ++ Payload p :: after
          /\ map parseText payloads = map Some events
          /\ parseText p = None
          /\ lastSnapshot content = Throws (SyntaxError p)
          /\ main content = Throws (SyntaxError p))).
  { destruct (payload_frames_cases (frames content) Hno)
      as [(ps & evs & Hf & Hp)|(ps & evs & p & after & Hf & Hp & Hn)].
    - left. exists ps, evs.
      destruct (Hhang ps evs Hf Hp) as [Hl Hm]. auto.
    - right. exists ps, evs, p, after.
      destruct (Hthrow ps evs p after Hf Hp Hn) as (_ & Hl & Hm). auto. }
  split; [|split; [|split; [|split; [|split]]]].
  - intros last H.
    destruct Hcases as [(ps & evs & _ & _ & Hl & _)
                       |(ps & evs & p & after & _ & _ & _ & Hl & _)];
      rewrite Hl in H; discriminate.
  - intros written H.
    destruct Hcases as [(ps & evs & _ & _ & _ & Hm)
                       |(ps & evs & p & after & _ & _ & _ & _ & Hm)];
      rewrite Hm in H; discriminate.
  - intros Hall.
    destruct Hcases as [(ps & evs & _ & _ & Hl & Hm)
                       |(ps & evs & p & after & Hf & _ & Hn & _ & _)].
    + auto.
    + exfalso. apply (Hall p); [|exact Hn].
      rewrite Hf. apply in_or_app. right. now left.
  - intros e He.
    destruct Hcases as [(ps & evs & _ & _ & Hl & _)
                       |(ps & evs & p & after & Hf & _ & Hn & Hl & _)].
    + rewrite Hl in He. discriminate.
    + rewrite Hl in He. injection He as <-. exists p.
      repeat split; auto.
      rewrite Hf. apply in_or_app. right. now left.
  - exact Hthrow.
  - exact Hcases.
Qed.

(** C4, as amended.  When a record that is neither blank nor the sentinel
    has a payload that is not a JSON text, the construction of the stream
    throws and the script ends with that exception: nothing is reduced
    and nothing is written.  The exception does not depend on the records
    after the malformed one, which are never looked at; and when the
    records before it went through, it is the [SyntaxError] of
    [JSON.parse] for that payload. *)
Theorem malformed_payload_fails_fast (content : jsstring)
  (before : list jsstring) (bad : jsstring) (after : list jsstring) :
  split [LF; LF] content = before ++ bad :: after ->
  malformed bad = true ->
  exists e,
    newReadableStream content = Throw e
    /\ main content = Throws e
    /\ (forall after',
          forEach onLine (before ++ bad :: after') newController = Throw e)
    /\ (forall c, forEach onLine before newController = Normal c ->
                  e = SyntaxError (slice 6 (trim bad))).
Proof.
  intros Hsplit Hbad.
  assert (Hrun : forall after', exists e,
    forEach onLine (before ++ bad :: after') newController = Throw e
    /\ (forall c, forEach onLine before newController = Normal c ->
                  e = SyntaxError (slice 6 (trim bad)))
    /\ forall after'',
        forEach onLine (before ++ bad :: after'') newController = Throw e).
  { intros after'.
    destruct (forEach onLine before newController) as [c1|e1] eqn:Hb.
    - exists (SyntaxError (slice 6 (trim bad))). repeat split.
      + rewrite forEach_app, Hb. simpl. now rewrite onLine_malformed.
      + intros after''. rewrite forEach_app, Hb. simpl.
        now rewrite onLine_malformed.
    - exists e1. repeat split.
      + now rewrite forEach_app, Hb.
      + intros c Hc. discriminate.
      + intros after''. now rewrite forEach_app, Hb. }
  destruct (Hrun after) as (e & He & Hsyn & Hany).
  exists e.
  assert (Hnew : newReadableStream content = Throw e).
  { unfold newReadableStream, start. rewrite Hsplit, He. reflexivity. }
  repeat split; auto.
  apply main_throw, lastSnapshot_throw, Hnew.
Qed.

(** C5.  At most one sentinel ends a stream, and no event after the
    sentinel is ever merged.  Whenever the reduction returns a final
    state, the frames are payloads followed by one sentinel, which is the
    last frame, and the state is the fold of the events before it.  And
    whenever a frame follows the sentinel, the construction of the stream
    throws, so that nothing at all is merged or written. *)
Theorem nothing_merged_after_sentinel (content : jsstring) :
  (forall last,
      lastSnapshot content = Returns last ->
      exists payloads events,
        frames content = map Payload payloads ++ [Terminal]
        /\ map parseText payloads = map Some events
        /\ last = finalState initialState merge events)
  /\ (forall before after,
         frames content = before ++ Terminal :: after ->
         after <> [] ->
         exists e, newReadableStream content = Throw e
                   /\ lastSnapshot content = Throws e
                   /\ main content = Throws e).
Proof.
  split.
  - intros last H.
    destruct (forEach deliver (frames content) newController) as [c|e] eqn:Hrun.
    + destruct (deliver_normal _ newController c eq_refl Hrun)
        as (ps & evs & Hfs & Hparse & Hq).
      simpl in Hq. subst evs.
      assert (Hs : newReadableStream content
                   = Normal {| chunks := queue c;
                               closed := closeRequested c |}).
      { rewrite newReadableStream_frames, Hrun. reflexivity. }
      rewrite (lastSnapshot_of_stream State initialState merge _ _ _ Hs) in H.
      destruct (closeRequested c); [|discriminate].
      injection H as <-. exists ps, (queue c). auto.
    + rewrite (lastSnapshot_throw State initialState merge content e) in H;
        [discriminate|].
      rewrite newReadableStream_frames, Hrun. reflexivity.
  - intros before after Hf Hafter.
    destruct (deliver_after_sentinel before after Hafter) as [e He].
    exists e.
    assert (Hnew : newReadableStream content = Throw e).
    { rewrite newReadableStream_frames, Hf, He. reflexivity. }
    repeat split; auto.
    + now apply lastSnapshot_throw.
    + now apply main_throw, lastSnapshot_throw.
Qed.

(** C10.  On a stream that is terminated but empty, the sentinel being
    its only frame, the loop ends with [last] still undefined, not with
    an initial state, and the script fails in the persistence step:
    [JSON.stringify] gives [undefined] and [writeFileSync] throws a
    [TypeError]. *)
Theorem empty_stream_fails_to_persist (content : jsstring) :
  frames content = [Terminal] ->
  lastSnapshot content = Returns None
  /\ JSON_stringify State None 2 = None
  /\ main content = Throws (TypeError ERR_INVALID_ARG_TYPE).
Proof.
  intros Hf.
  assert (Hs : newReadableStream content
               = Normal {| chunks := []; closed := true |}).
  { apply (stream_of_terminated content [] []); [exact Hf | reflexivity]. }
  assert (Hl : lastSnapshot content = Returns None).
  { rewrite (lastSnapshot_of_stream State initialState merge _ _ _ Hs).
    reflexivity. }
  repeat split; auto.
  unfold Replay.main. rewrite Hl. reflexivity.
Qed.

End Reduction.

End ReplayTheorems.

(* ===================================================================== *)
(** * The first script on concrete streams *)
(* ===================================================================== *)

Module ReplayExamples.
Import JS Replay ReplayTheorems.

Lemma start_delivers_frames_witness :
  newReadableStream (scenarioStream "data: ")
  = Normal {| chunks := [JObject [(lit "delta", JString (lit "He"))];
                         JObject [(lit "delta", JString (lit "llo"))]];
              closed := true |}.
Proof.
  apply (proj2 (proj2 (start_delivers_frames (scenarioStream "data: ")))
           [deltaPayload "He"; deltaPayload "llo"]);
    vm_compute; reflexivity.
Defined.

(** C2, as the specification states it.  With the prefix [A:] the first
    six code units of the first record reach into its payload: what is
    left, which starts with the letters lta, is not a JSON text, [JSON.parse] throws and no
    state is produced. *)
Lemma scenario_as_written_throws :
  lastSnapshot JSON emptyState concatDelta (scenarioStream "A:")
  = Throws (SyntaxError (lit "lta" ++ dq ++ lit ":" ++ quoted "He" ++ lit "}"))
  /\ lastSnapshot JSON emptyState concatDelta (scenarioStream "A:")
     <> Returns (Some helloState).
Proof.
  split; [vm_compute; reflexivity|].
  vm_compute. discriminate.
Qed.

(** C2, as amended.  With a prefix of six characters, [data: ], on each of
    the three records, parsing and reducing with the merge that
    concatenates [delta] into [text] ends normally, the final state is
    the object whose only member, text, is the string Hello, and it is what
    the script writes. *)
Theorem scenario_reduces_to_hello :
  lastSnapshot JSON emptyState concatDelta (scenarioStream "data: ")
  = Returns (Some helloState)
  /\ main JSON emptyState concatDelta (scenarioStream "data: ")
     = Returns (Indented JSON 2 helloState).
Proof. split; vm_compute; reflexivity. Qed.

(** C3, as the specification states it.  A stream of one event and no
    sentinel raises no error at all: the loop waits for ever. *)
Lemma unterminated_stream_raises_nothing :
  ~ In Terminal (frames (record "data: " (deltaPayload "He")))
  /\ lastSnapshot JSON emptyState concatDelta
       (record "data: " (deltaPayload "He")) = NeverSettles
  /\ forall e, lastSnapshot JSON emptyState concatDelta
                 (record "data: " (deltaPayload "He")) <> Throws e.
Proof.
  split; [|split].
  - vm_compute. intros [H|[]]. discriminate.
  - vm_compute. reflexivity.
  - intros e. vm_compute. discriminate.
Qed.

Lemma missing_sentinel_never_returns_witness :
  (lastSnapshot JSON emptyState concatDelta
     (record "data: " (deltaPayload "He")) = NeverSettles
   /\ main JSON emptyState concatDelta
        (record "data: " (deltaPayload "He")) = NeverSettles)
  /\ (newReadableStream
        (joinRecords [record "data: " (lit "1"); record "data: " (lit "x");
                      record "data: " (lit "y")])
      = Throw (SyntaxError (lit "x"))
      /\ lastSnapshot JSON emptyState concatDelta
           (joinRecords [record "data: " (lit "1");
                         record "data: " (lit "x");
                         record "data: " (lit "y")])
         = Throws (SyntaxError (lit "x"))
      /\ main JSON emptyState concatDelta
           (joinRecords [record "data: " (lit "1");
                         record "data: " (lit "x");
                         record "data: " (lit "y")])
         = Throws (SyntaxError (lit "x"))).
Proof.
  split.
  - apply (proj1 (proj2 (proj2
             (missing_sentinel_never_returns JSON emptyState concatDelta
                (record "data: " (deltaPayload "He"))
                ltac:(vm_compute; intros [H|[]]; discriminate))))).
    intros p. vm_compute. intros [H|[]]. injection H as <-.
    vm_compute. discriminate.
  - apply (proj1 (proj2 (proj2 (proj2 (proj2
             (missing_sentinel_never_returns JSON emptyState concatDelta
                (joinRecords [record "data: " (lit "1");
                              record "data: " (lit "x");
                              record "data: " (lit "y")])
                ltac:(vm_compute; intros [H|[H|[H|[]]]]; discriminate))))))
             [lit "1"] [JNumber (lit "1")] (lit "x") [Payload (lit "y")]);
      vm_compute; reflexivity.
Defined.

(** C4, as the specification states it.  The exception cannot tell where
    the malformed record is: the same [SyntaxError] is thrown whether the
    record comes first or second. *)
Lemma syntax_error_carries_no_offset :
  ~ exists locate : Exception -> nat,
      forall content offset,
        firstMalformed content = Some offset ->
        exists e, newReadableStream content = Throw e /\ locate e = offset.
Proof.
  intros [locate H].
  destruct (H (record "data: " (lit "x")) 0 eq_refl) as (e1 & He1 & H1).
  destruct (H (joinRecords [record "data: " (lit "1");
                            record "data: " (lit "x")]) 1 eq_refl)
    as (e2 & He2 & H2).
  vm_compute in He1. vm_compute in He2.
  injection He1 as <-. injection He2 as <-.
  rewrite H1 in H2. discriminate.
Qed.

Lemma malformed_payload_fails_fast_witness :
  exists e,
    newReadableStream
      (joinRecords [record "data: " (lit "1"); record "data: " (lit "x");
                    record "data: " (lit "2")]) = Throw e
    /\ main JSON emptyState concatDelta
         (joinRecords [record "data: " (lit "1"); record "data: " (lit "x");
                       record "data: " (lit "2")]) = Throws e
    /\ (forall after',
          forEach onLine
            ([record "data: " (lit "1")] ++ record "data: " (lit "x")
             :: after') newController = Throw e)
    /\ (forall c,
          forEach onLine [record "data: " (lit "1")] newController
          = Normal c ->
          e = SyntaxError (slice 6 (trim (record "data: " (lit "x"))))).
Proof.
  apply (malformed_payload_fails_fast JSON emptyState concatDelta
           (joinRecords [record "data: " (lit "1");
                         record "data: " (lit "x");
                         record "data: " (lit "2")])
           [record "data: " (lit "1")] (record "data: " (lit "x"))
           [record "data: " (lit "2")]);
    vm_compute; reflexivity.
Defined.

Lemma nothing_merged_after_sentinel_witness :
  (exists payloads events,
      frames (scenarioStream "data: ") = map Payload payloads ++ [Terminal]
      /\ map parseText payloads = map Some events
      /\ Some helloState = finalState emptyState concatDelta events)
  /\ (exists e,
        newReadableStream
          (joinRecords [record "data: " DONE;
                        record "data: " (deltaPayload "He")]) = Throw e
        /\ lastSnapshot JSON emptyState concatDelta
             (joinRecords [record "data: " DONE;
                           record "data: " (deltaPayload "He")]) = Throws e
        /\ main JSON emptyState concatDelta
             (joinRecords [record "data: " DONE;
                           record "data: " (deltaPayload "He")]) = Throws e).
Proof.
  split.
  - apply (proj1 (nothing_merged_after_sentinel JSON emptyState concatDelta
                    (scenarioStream "data: "))).
    vm_compute. reflexivity.
  - apply (proj2 (nothing_merged_after_sentinel JSON emptyState concatDelta
                    (joinRecords [record "data: " DONE;
                                  record "data: " (deltaPayload "He")]))
             [] [Payload (deltaPayload "He")]).
    + vm_compute. reflexivity.
    + discriminate.
Defined.

Lemma empty_stream_fails_to_persist_witness :
  lastSnapshot JSON emptyState concatDelta (record "data: " DONE)
  = Returns None
  /\ JSON_stringify JSON None 2 = None
  /\ main JSON emptyState concatDelta (record "data: " DONE)
     = Throws (TypeError ERR_INVALID_ARG_TYPE).
Proof.
  apply (empty_stream_fails_to_persist JSON emptyState concatDelta
           (record "data: " DONE)).
  vm_compute. reflexivity.
Defined.

End ReplayExamples.

(* ===================================================================== *)
(** * Properties of the second script *)
(* ===================================================================== *)

Module CompareFacts.
Import JS Compare.

(** ** The report loop *)

Lemma onResult_line (r : DiffResult) (console : Console) :
  onResult r console
  = console ++ (if printed r then [reportLine r] else []).
Proof.
  unfold onResult, printed, console_log, reportLine.
  destruct (negb (DiffType_eqb (type r) equal)).
  - now rewrite <- !app_assoc.
  - now rewrite app_nil_r.
Qed.

Lemma forEachDo_onResult (res : list DiffResult) (console : Console) :
  forEachDo onResult res console
  = console ++ map reportLine (filter printed res).
Proof.
  revert console. induction res as [|r res IH]; intros console; simpl.
  - now rewrite app_nil_r.
  - rewrite IH, onResult_line, <- app_assoc.
    destruct (printed r); reflexivity.
Qed.

Lemma report_lines (results : list (list DiffResult)) (console : Console) :
  report results console
  = console ++ map reportLine (filter printed (List.concat results)).
Proof.
  unfold report. revert console.
  induction results as [|res results IH]; intros console; simpl.
  - now rewrite app_nil_r.
  - rewrite IH, forEachDo_onResult, <- app_assoc.
    now rewrite filter_app, map_app.
Qed.

(** ** Equality tests *)

Lemma jsstring_eqb_eq (a b : jsstring) : jsstring_eqb a b = true <-> a = b.
Proof.
  revert b. induction a as [|x a IH]; intros [|y b]; simpl;
    try (split; [discriminate | discriminate]); [tauto|].
  rewrite andb_true_iff, N.eqb_eq, IH.
  split; [intros [-> ->]; reflexivity | intros H; now injection H].
Qed.

Lemma jsstring_eqb_refl (a : jsstring) : jsstring_eqb a a = true.
Proof. now apply jsstring_eqb_eq. Qed.

Lemma jsstring_eqb_sym (a b : jsstring) :
  jsstring_eqb a b = jsstring_eqb b a.
Proof.
  destruct (jsstring_eqb a b) eqn:H1, (jsstring_eqb b a) eqn:H2; auto.
  - apply jsstring_eqb_eq in H1. subst. now rewrite jsstring_eqb_refl in H2.
  - apply jsstring_eqb_eq in H2. subst. now rewrite jsstring_eqb_refl in H1.
Qed.

Lemma JSON_eqb_eq (a b : JSON) : JSON_eqb a b = true <-> a = b.
Proof.
  revert b. induction a as [|x|x|x|xs IH|xs IH] using JSON_ind; intros b.
  - destruct b; simpl; split; congruence.
  - destruct b as [|y| | | |]; simpl; try (split; congruence).
    rewrite Bool.eqb_true_iff. split; congruence.
  - destruct b as [| |y| | |]; simpl; try (split; congruence).
    rewrite jsstring_eqb_eq. split; congruence.
  - destruct b as [| | |y| |]; simpl; try (split; congruence).
    rewrite jsstring_eqb_eq. split; congruence.
  - destruct b as [| | | |ys|]; simpl; try (split; congruence).
    revert ys. induction IH as [|x xs Hx _ IHxs]; intros [|y ys];
      try (split; congruence).
    rewrite andb_true_iff, Hx, IHxs. split.
    + intros [-> H]. now injection H as ->.
    + intros H. injection H as -> ->. auto.
  - destruct b as [| | | | |ys]; simpl; try (split; congruence).
    revert ys. induction IH as [|[k x] xs Hx _ IHxs]; intros [|[k' y] ys];
      try (split; congruence).
    simpl in Hx.
    rewrite !andb_true_iff, jsstring_eqb_eq, Hx, IHxs. split.
    + intros [[-> ->] H]. now injection H as ->.
    + intros H. injection H as -> -> ->. auto.
Qed.

Lemma JSON_eqb_refl (a : JSON) : JSON_eqb a a = true.
Proof. now apply JSON_eqb_eq. Qed.

Lemma JSON_eqb_sym (a b : JSON) : JSON_eqb a b = JSON_eqb b a.
Proof.
  destruct (JSON_eqb a b) eqn:H1, (JSON_eqb b a) eqn:H2; auto.
  - apply JSON_eqb_eq in H1. subst. rewrite JSON_eqb_refl in H2.
    discriminate.
  - apply JSON_eqb_eq in H2. subst. rewrite JSON_eqb_refl in H1.
    discriminate.
Qed.

(** ** Counting *)

Lemma countChanges_app (t : DiffType) (a b : list Change) :
  countChanges t (a ++ b) = countChanges t a + countChanges t b.
Proof. unfold countChanges. now rewrite filter_app, length_app. Qed.

Lemma countChanges_cons (t : DiffType) (c : Change) (a : list Change) :
  countChanges t (c :: a) = countChanges t [c] + countChanges t a.
Proof. apply (countChanges_app t [c] a). Qed.

Lemma allSame_app (a b : list Change) :
  allSame (a ++ b) <-> allSame a /\ allSame b.
Proof. apply Forall_app. Qed.

Lemma allSame_count (t : DiffType) (a : list Change) :
  allSame a -> t <> equal -> countChanges t a = 0.
Proof.
  intros H Ht. induction H as [|c a Hc _ IH]; [reflexivity|].
  rewrite countChanges_cons, IH. unfold countChanges. simpl.
  rewrite Hc. destruct t; try reflexivity. contradiction.
Qed.

Section Numbering.

Variable describe : Change -> jsstring.

Lemma type_numbered (n : N) (changes : list Change) :
  map type (numbered describe n changes) = map typeOf changes.
Proof.
  revert n. induction changes as [|c cs IH]; intros n; simpl;
    [reflexivity | now rewrite IH].
Qed.

Lemma count_numbered (t : DiffType) (n : N) (changes : list Change) :
  count t (numbered describe n changes) = countChanges t changes.
Proof.
  unfold count, countChanges. revert n.
  induction changes as [|c cs IH]; intros n; simpl; [reflexivity|].
  destruct (DiffType_eqb (typeOf c) t); simpl; now rewrite IH.
Qed.

Lemma allSame_numbered (n : N) (changes : list Change) :
  allSame changes ->
  Forall (fun r => type r = equal) (numbered describe n changes).
Proof.
  intros H. revert n. induction H as [|c cs Hc _ IH]; intros n; simpl;
    constructor; auto.
Qed.

End Numbering.

(** ** Alignments played without indices *)

Lemma covers_keep (steps : list Step) (nl nr : nat) :
  covers (Keep :: steps) nl nr ->
  exists nl' nr', nl = S nl' /\ nr = S nr' /\ covers steps nl' nr'.
Proof.
  unfold covers. simpl. intros [H1 H2].
  exists (pred nl), (pred nr). lia.
Qed.

Lemma covers_delete (steps : list Step) (nl nr : nat) :
  covers (Delete :: steps) nl nr ->
  exists nl', nl = S nl' /\ covers steps nl' nr.
Proof.
  unfold covers. simpl. intros [H1 H2]. exists (pred nl). lia.
Qed.

Lemma covers_insert (steps : list Step) (nl nr : nat) :
  covers (Insert :: steps) nl nr ->
  exists nr', nr = S nr' /\ covers steps nl nr'.
Proof.
  unfold covers. simpl. intros [H1 H2]. exists (pred nr). lia.
Qed.

Lemma nth_error_after {A : Type} (pre : list A) (x : A) (rest : list A) :
  nth_error (pre ++ x :: rest) (List.length pre) = Some x.
Proof.
  rewrite nth_error_app2 by lia. now rewrite Nat.sub_diag.
Qed.

Section Playing.

Variable f : JSON -> JSON -> list Change.

(** The pairs of an alignment, looked up by index, give what the steps
    give when played. *)
Lemma play_indexed (steps : list Step) :
  forall (ls rs pl pr : list JSON),
    covers steps (List.length ls) (List.length rs) ->
    flat_map (comparePair (map (fun l => (l, f l)) (pl ++ ls)) (pr ++ rs))
             (indexed (List.length pl) (List.length pr) steps)
    = play f steps ls rs.
Proof.
  induction steps as [|st steps IH]; intros ls rs pl pr Hc; [reflexivity|].
  destruct st; simpl indexed; simpl flat_map.
  - destruct (covers_keep _ _ _ Hc) as (nl & nr & Hl & Hr & Hc').
    destruct ls as [|l ls]; [discriminate|].
    destruct rs as [|r rs]; [discriminate|].
    simpl in Hl, Hr. injection Hl as Hl. injection Hr as Hr. subst nl nr.
    unfold comparePair at 1.
    rewrite map_app. simpl map.
    rewrite <- (length_map (fun l0 => (l0, f l0)) pl) at 1.
    rewrite nth_error_after, nth_error_after. simpl play. f_equal.
    specialize (IH ls rs (pl ++ [l]) (pr ++ [r]) Hc').
    rewrite !length_app, <- !app_assoc in IH. simpl in IH.
    rewrite !Nat.add_1_r in IH. rewrite <- IH.
    now rewrite map_app.
  - destruct (covers_delete _ _ _ Hc) as (nl & Hl & Hc').
    destruct ls as [|l ls]; [discriminate|].
    simpl in Hl. injection Hl as Hl. subst nl.
    unfold comparePair at 1.
    rewrite map_app. simpl map.
    rewrite <- (length_map (fun l0 => (l0, f l0)) pl) at 1.
    rewrite nth_error_after. simpl play. simpl app. f_equal.
    specialize (IH ls rs (pl ++ [l]) pr Hc').
    rewrite !length_app, <- !app_assoc in IH. simpl in IH.
    rewrite !Nat.add_1_r in IH. rewrite <- IH.
    now rewrite map_app.
  - destruct (covers_insert _ _ _ Hc) as (nr & Hr & Hc').
    destruct rs as [|r rs]; [discriminate|].
    simpl in Hr. injection Hr as Hr. subst nr.
    unfold comparePair at 1.
    rewrite nth_error_after. simpl play. simpl app. f_equal.
    specialize (IH ls rs pl (pr ++ [r]) Hc').
    rewrite !length_app, <- !app_assoc in IH. simpl in IH.
    rewrite !Nat.add_1_r in IH. now rewrite <- IH.
Qed.

Lemma play_inserts (ls rs : list JSON) :
  play f (repeat Insert (List.length rs)) ls rs = map Added rs.
Proof. induction rs as [|r rs IH]; simpl; [reflexivity | now rewrite IH]. Qed.

Lemma play_deletes (ls rs : list JSON) :
  play f (repeat Delete (List.length ls)) ls rs = map Removed ls.
Proof.
  induction ls as [|l ls IH]; simpl; [reflexivity | now rewrite IH].
Qed.

Lemma play_positional (ls rs : list JSON) :
  play f (positionalSteps ls rs) ls rs = zipCompare f ls rs.
Proof.
  unfold positionalSteps. revert rs.
  induction ls as [|l ls IH]; intros rs.
  - simpl. rewrite Nat.sub_0_r. apply play_inserts.
  - destruct rs as [|r rs].
    + simpl List.length. simpl Nat.min. rewrite Nat.sub_0_r.
      change (repeat Insert 0) with (@nil Step).
      change (repeat Keep 0) with (@nil Step).
      rewrite app_nil_r. apply (play_deletes (l :: ls) []).
    + simpl. f_equal. apply IH.
Qed.

Lemma play_keeps (ls rs : list JSON) :
  List.length ls = List.length rs ->
  play f (repeat Keep (List.length ls)) ls rs = zipCompare f ls rs.
Proof.
  revert rs. induction ls as [|l ls IH]; intros [|r rs] H;
    try discriminate; [reflexivity|].
  simpl. f_equal. apply IH. now injection H.
Qed.

End Playing.

Lemma covers_repeat_keep (n : nat) : covers (repeat Keep n) n n.
Proof.
  unfold covers. induction n as [|n [IH1 IH2]]; simpl; [auto|]. lia.
Qed.

Lemma filter_repeat_other (p : Step -> bool) (s : Step) (n : nat) :
  p s = false -> filter p (repeat s n) = [].
Proof.
  intros H. induction n as [|n IH]; simpl; [reflexivity|]. now rewrite H.
Qed.

Lemma filter_repeat_same (p : Step -> bool) (s : Step) (n : nat) :
  p s = true -> filter p (repeat s n) = repeat s n.
Proof.
  intros H. induction n as [|n IH]; simpl; [reflexivity|].
  now rewrite H, IH.
Qed.

Lemma covers_positional (ls rs : list JSON) :
  covers (positionalSteps ls rs) (List.length ls) (List.length rs).
Proof.
  unfold covers, positionalSteps.
  rewrite !filter_app, !length_app.
  rewrite !(filter_repeat_same isKeep Keep), !(filter_repeat_other isKeep Delete),
    !(filter_repeat_other isKeep Insert), !(filter_repeat_other isDelete Keep),
    !(filter_repeat_same isDelete Delete), !(filter_repeat_other isDelete Insert),
    !(filter_repeat_other isInsert Keep), !(filter_repeat_other isInsert Delete),
    !(filter_repeat_same isInsert Insert) by reflexivity.
  rewrite !repeat_length. simpl. lia.
Qed.

Lemma covers_lcs (ls rs : list JSON) :
  covers (lcsSteps ls rs) (List.length ls) (List.length rs).
Proof.
  revert rs. induction ls as [|x ls IHl]; intros rs.
  - destruct rs; simpl; unfold covers;
      rewrite ?(filter_repeat_other isKeep Insert),
        ?(filter_repeat_other isDelete Insert),
        ?(filter_repeat_same isInsert Insert) by reflexivity;
      simpl; rewrite ?repeat_length; auto.
    simpl. rewrite (filter_repeat_other isKeep Insert),
      (filter_repeat_other isDelete Insert),
      (filter_repeat_same isInsert Insert) by reflexivity.
    simpl. now rewrite repeat_length.
  - induction rs as [|y rs IHr].
    + simpl. unfold covers. simpl.
      rewrite (filter_repeat_other isKeep Delete),
        (filter_repeat_same isDelete Delete),
        (filter_repeat_other isInsert Delete) by reflexivity.
      simpl. now rewrite repeat_length.
    + simpl lcsSteps. destruct (JSON_eqb x y).
      * specialize (IHl rs). unfold covers in *. simpl. lia.
      * match goal with
        | |- covers (if ?b then _ else _) _ _ => destruct b
        end.
        -- specialize (IHl (y :: rs)). unfold covers in *. simpl in *. lia.
        -- unfold covers in *. simpl in *. lia.
Qed.

Lemma covers_alignmentSteps (m : ArrayDiffMethod) (ls rs : list JSON) :
  covers (alignmentSteps m ls rs) (List.length ls) (List.length rs).
Proof. destruct m; [apply covers_positional | apply covers_lcs]. Qed.

(** ** [compare], case by case *)

Lemma compare_arrays (o : Options) (d : nat) (ls rs : list JSON) :
  compare o d (JArray ls) (JArray rs)
  = if tooDeep d (maxDepth o) then summary (JArray ls) (JArray rs)
    else play (compare o (S d)) (alignmentSteps (arrayDiffMethod o) ls rs)
              ls rs.
Proof.
  simpl. destruct (tooDeep d (maxDepth o)); [reflexivity|].
  unfold align.
  apply (play_indexed (compare o (S d)) _ ls rs [] []).
  apply covers_alignmentSteps.
Qed.

Lemma compare_objects (o : Options) (d : nat)
  (lm rm : list (jsstring * JSON)) :
  compare o d (JObject lm) (JObject rm)
  = if tooDeep d (maxDepth o) then summary (JObject lm) (JObject rm)
    else compareMembers (compare o (S d)) rm lm
         ++ map (fun kv => Added (snd kv)) (newMembers lm rm).
Proof. reflexivity. Qed.

(** ** Members *)

Lemma getProperty_in (k : jsstring) (v : JSON) (m : list (jsstring * JSON)) :
  In (k, v) m -> getProperty k m <> None.
Proof.
  induction m as [|[k' v'] m IH]; simpl; [tauto|].
  intros [H|H].
  - injection H as -> ->. now rewrite jsstring_eqb_refl.
  - destruct (jsstring_eqb k k'); [discriminate | auto].
Qed.

Lemma getProperty_some (k : jsstring) (v : JSON)
  (m : list (jsstring * JSON)) :
  getProperty k m = Some v -> In (k, v) m.
Proof.
  induction m as [|[k' v'] m IH]; simpl; [discriminate|].
  destruct (jsstring_eqb k k') eqn:Hk.
  - apply jsstring_eqb_eq in Hk. subst. intros H. injection H as ->.
    now left.
  - auto.
Qed.

Lemma getProperty_distinct (m : list (jsstring * JSON)) :
  distinctKeys m = true ->
  forall k v, In (k, v) m -> getProperty k m = Some v.
Proof.
  induction m as [|[k' v'] m IH]; simpl; [tauto|].
  destruct (getProperty k' m) eqn:Hk'; [discriminate|].
  intros Hd k v [H|H].
  - injection H as -> ->. now rewrite jsstring_eqb_refl.
  - destruct (jsstring_eqb k k') eqn:Hk.
    + apply jsstring_eqb_eq in Hk. subst.
      exfalso. exact (getProperty_in _ _ _ H Hk').
    + auto.
Qed.

Lemma distinctKeys_tail (kv : jsstring * JSON) (m : list (jsstring * JSON)) :
  distinctKeys (kv :: m) = true ->
  getProperty (fst kv) m = None /\ distinctKeys m = true.
Proof.
  destruct kv as [k v]. simpl. destruct (getProperty k m); auto.
  discriminate.
Qed.

Lemma newMembers_none (l r : list (jsstring * JSON)) :
  (forall kv, In kv r -> getProperty (fst kv) l <> None) ->
  newMembers l r = [].
Proof.
  unfold newMembers. induction r as [|kv r IH]; intros H; simpl;
    [reflexivity|].
  destruct (getProperty (fst kv) l) eqn:Hg.
  - apply IH. intros kv' Hin. apply H. now right.
  - exfalso. apply (H kv); [now left | exact Hg].
Qed.

Lemma newMembers_self (m : list (jsstring * JSON)) : newMembers m m = [].
Proof.
  apply newMembers_none. intros [k v] Hin. exact (getProperty_in _ _ _ Hin).
Qed.

Lemma wellFormed_element (l : list JSON) (x : JSON) :
  wellFormed (JArray l) = true -> In x l -> wellFormed x = true.
Proof.
  simpl. intros H Hin. rewrite forallb_forall in H. auto.
Qed.

Lemma wellFormed_member (m : list (jsstring * JSON)) (k : jsstring)
  (v : JSON) :
  wellFormed (JObject m) = true -> In (k, v) m -> wellFormed v = true.
Proof.
  simpl. intros H Hin. apply andb_true_iff in H as [_ H].
  rewrite forallb_forall in H. exact (H (k, v) Hin).
Qed.

Lemma wellFormed_distinct (m : list (jsstring * JSON)) :
  wellFormed (JObject m) = true -> distinctKeys m = true.
Proof. simpl. intros H. now apply andb_true_iff in H as [H _]. Qed.

(** ** What [JSON.parse] gives is well formed *)

Lemma getProperty_setProperty (k k' : jsstring) (v : JSON)
  (m : list (jsstring * JSON)) :
  getProperty k' (setProperty k v m)
  = if jsstring_eqb k' k then Some v else getProperty k' m.
Proof.
  induction m as [|[k0 v0] m IH]; simpl; [reflexivity|].
  destruct (jsstring_eqb k k0) eqn:Hk; simpl.
  - apply jsstring_eqb_eq in Hk. subst k0.
    destruct (jsstring_eqb k' k); reflexivity.
  - rewrite IH. destruct (jsstring_eqb k' k0) eqn:Hk0; [|reflexivity].
    apply jsstring_eqb_eq in Hk0. subst k0.
    rewrite jsstring_eqb_sym, Hk. reflexivity.
Qed.

Lemma setProperty_distinct (k : jsstring) (v : JSON)
  (m : list (jsstring * JSON)) :
  distinctKeys m = true -> distinctKeys (setProperty k v m) = true.
Proof.
  induction m as [|[k0 v0] m IH]; simpl; [reflexivity|].
  destruct (getProperty k0 m) eqn:Hg; [discriminate|]. intros Hd.
  destruct (jsstring_eqb k k0) eqn:Hk; simpl.
  - now rewrite Hg.
  - rewrite getProperty_setProperty, jsstring_eqb_sym, Hk, Hg. auto.
Qed.

Lemma setProperty_wellFormed (k : jsstring) (v : JSON)
  (m : list (jsstring * JSON)) :
  wellFormed v = true ->
  wellFormed (JObject m) = true ->
  wellFormed (JObject (setProperty k v m)) = true.
Proof.
  intros Hv Hm. simpl in *. apply andb_true_iff in Hm as [Hd Hall].
  apply andb_true_iff. split; [now apply setProperty_distinct|].
  clear Hd. induction m as [|[k0 v0] m IH]; simpl.
  - now rewrite Hv.
  - simpl in Hall. apply andb_true_iff in Hall as [H0 Hall].
    destruct (jsstring_eqb k k0); simpl.
    + now rewrite Hv, Hall.
    + now rewrite H0, IH.
Qed.

Lemma parse_wellFormed (fuel : nat) :
  (forall s v r, parseValue fuel s = Accept v r -> wellFormed v = true)
  /\ (forall s acc v r,
        forallb wellFormed acc = true ->
        parseElements fuel s acc = Accept v r -> wellFormed v = true)
  /\ (forall s acc v r,
        wellFormed (JObject acc) = true ->
        parseMembers fuel s acc = Accept v r -> wellFormed v = true).
Proof.
  induction fuel as [|fuel (IHv & IHe & IHm)];
    [repeat split; intros; discriminate|].
  split; [|split].
  - intros s v r H. cbn [parseValue parseElements parseMembers] in H.
    destruct (skipWhiteSpace s) as [|c r0]; [discriminate|].
    destruct (c =? 123)%N.
    { destruct (skipWhiteSpace r0) as [|c' r']; [discriminate|].
      destruct (c' =? 125)%N.
      - assert (v = JObject []) by congruence. now subst.
      - now apply IHm in H. }
    destruct (c =? 91)%N.
    { destruct (skipWhiteSpace r0) as [|c' r']; [discriminate|].
      destruct (c' =? 93)%N.
      - assert (v = JArray []) by congruence. now subst.
      - now apply IHe in H. }
    destruct (c =? 34)%N.
    { destruct (parseStringBody r0) as [[str r']|]; [|discriminate].
      assert (v = JString str) by congruence. now subst. }
    destruct (startsWith (lit "true") (c :: r0)).
    { assert (v = JBool true) by congruence. now subst. }
    destruct (startsWith (lit "false") (c :: r0)).
    { assert (v = JBool false) by congruence. now subst. }
    destruct (startsWith (lit "null") (c :: r0)).
    { assert (v = JNull) by congruence. now subst. }
    destruct (parseNumber (c :: r0)) as [[n r']|]; [|discriminate].
    assert (v = JNumber n) by congruence. now subst.
  - intros s acc v r Hacc H.
    cbn [parseValue parseElements parseMembers] in H.
    destruct (parseValue fuel s) as [v0 r0| |] eqn:Hv; try discriminate.
    apply IHv in Hv.
    destruct (skipWhiteSpace r0) as [|c r']; [discriminate|].
    destruct (c =? 44)%N.
    { apply IHe in H; [assumption|]. simpl. now rewrite Hv, Hacc. }
    destruct (c =? 93)%N; [|discriminate].
    assert (Hr : v = JArray (rev (v0 :: acc))) by congruence. subst v.
    change (forallb wellFormed (rev (v0 :: acc)) = true).
    apply forallb_forall. intros x Hx.
    rewrite <- in_rev in Hx. rewrite forallb_forall in Hacc.
    destruct Hx as [<-|Hx]; auto.
  - intros s acc v r Hacc H.
    cbn [parseValue parseElements parseMembers] in H.
    destruct (skipWhiteSpace s) as [|q r0]; [discriminate|].
    destruct (q =? 34)%N; [|discriminate].
    destruct (parseStringBody r0) as [[k r1]|]; [|discriminate].
    destruct (skipWhiteSpace r1) as [|colon r2]; [discriminate|].
    destruct (colon =? 58)%N; [|discriminate].
    destruct (parseValue fuel r2) as [v0 r3| |] eqn:Hv; try discriminate.
    apply IHv in Hv.
    destruct (skipWhiteSpace r3) as [|c r4]; [discriminate|].
    pose proof (setProperty_wellFormed k v0 acc Hv Hacc) as Hset.
    destruct (c =? 44)%N; [now apply IHm in H|].
    destruct (c =? 125)%N; [|discriminate].
    assert (Hr : v = JObject (setProperty k v0 acc)) by congruence.
    now subst v.
Qed.

(** The trees the second script compares come out of [JSON.parse]
    (index.js, lines 41-42): their keys are distinct at every level. *)
Lemma parseText_wellFormed (text : jsstring) (v : JSON) :
  parseText text = Some v -> wellFormed v = true.
Proof.
  unfold parseText.
  destruct (parseValue (2 * List.length text + 1) text) as [v0 r| |] eqn:H;
    try discriminate.
  destruct (isEmpty (skipWhiteSpace r)); [|discriminate].
  intros Hv. injection Hv as <-.
  exact (proj1 (parse_wellFormed _) _ _ _ H).
Qed.

(** ** A tree against itself *)

Lemma summary_same (x : JSON) : allSame (summary x x).
Proof.
  unfold summary. rewrite JSON_eqb_refl. repeat constructor.
Qed.

Lemma compareLeaves_same (o : Options) (x : JSON) :
  match x with JArray _ | JObject _ => False | _ => True end ->
  allSame (compareLeaves o x x).
Proof.
  destruct x; simpl; try contradiction; intros _; unfold compareLeaves;
    simpl; rewrite ?Bool.eqb_reflx, ?jsstring_eqb_refl;
    repeat constructor.
Qed.

Lemma zipCompare_same (f : JSON -> JSON -> list Change) (ls : list JSON) :
  Forall (fun l => allSame (f l l)) ls -> allSame (zipCompare f ls ls).
Proof.
  induction 1 as [|l ls Hl _ IH]; simpl; [constructor|].
  apply allSame_app. auto.
Qed.

Lemma lcsSteps_same (ls : list JSON) :
  lcsSteps ls ls = repeat Keep (List.length ls).
Proof.
  induction ls as [|x ls IH]; simpl; [reflexivity|].
  rewrite JSON_eqb_refl. now rewrite IH.
Qed.

Lemma play_same (f : JSON -> JSON -> list Change) (m : ArrayDiffMethod)
  (ls : list JSON) :
  play f (alignmentSteps m ls ls) ls ls = zipCompare f ls ls.
Proof.
  destruct m; simpl.
  - apply play_positional.
  - rewrite lcsSteps_same. now apply play_keeps.
Qed.

Lemma compareMembers_same (f : JSON -> JSON -> list Change)
  (full sub : list (jsstring * JSON)) :
  (forall k v, In (k, v) sub ->
               getProperty k full = Some v /\ allSame (f v v)) ->
  allSame (compareMembers f full sub).
Proof.
  induction sub as [|[k v] sub IH]; intros H; simpl; [constructor|].
  destruct (H k v (or_introl eq_refl)) as [-> Hv].
  apply allSame_app. split; [exact Hv|].
  apply IH. intros k' v' Hin. apply H. now right.
Qed.

(** A well-formed tree compared with itself gives only [Same]. *)
Lemma compare_same (x : JSON) :
  wellFormed x = true -> forall o d, allSame (compare o d x x).
Proof.
  induction x as [|b|n|s|l IH|m IH] using JSON_ind; intros Hwf o d.
  1-4: simpl; destruct (tooDeep d (maxDepth o));
       [apply summary_same | now apply compareLeaves_same].
  - rewrite compare_arrays.
    destruct (tooDeep d (maxDepth o)); [apply summary_same|].
    rewrite play_same. apply zipCompare_same.
    rewrite Forall_forall in *. intros x Hin.
    apply IH; [exact Hin|]. exact (wellFormed_element _ _ Hwf Hin).
  - rewrite compare_objects.
    destruct (tooDeep d (maxDepth o)); [apply summary_same|].
    rewrite newMembers_self. simpl. rewrite app_nil_r.
    apply compareMembers_same. intros k v Hin. split.
    + apply getProperty_distinct; [|exact Hin].
      now apply wellFormed_distinct.
    + rewrite Forall_forall in IH. apply (IH (k, v) Hin).
      exact (wellFormed_member _ _ _ Hwf Hin).
Qed.

(** ** Left and right swapped, under the positional strategy *)

Lemma summary_swap (t : DiffType) (l r : JSON) :
  countChanges t (summary r l) = countChanges (swapped t) (summary l r).
Proof.
  unfold summary. rewrite (JSON_eqb_sym r l).
  destruct (JSON_eqb l r); destruct t; reflexivity.
Qed.

Lemma compareLeaves_swap (o : Options) (t : DiffType) (l r : JSON) :
  countChanges t (compareLeaves o r l)
  = countChanges (swapped t) (compareLeaves o l r).
Proof.
  unfold compareLeaves. rewrite (JSON_eqb_sym r l).
  destruct l, r; simpl kindOf; cbv iota;
    try (destruct t; reflexivity);
    match goal with
    | |- context [JSON_eqb ?a ?b] => destruct (JSON_eqb a b)
    end;
    destruct (showModifications o); destruct t; reflexivity.
Qed.

Lemma compare_leaves (o : Options) (d : nat) (l r : JSON) :
  leafPair l r ->
  compare o d l r
  = if tooDeep d (maxDepth o) then summary l r else compareLeaves o l r.
Proof. destruct l, r; simpl; intros H; try contradiction; reflexivity. Qed.

Lemma leafPair_sym (l r : JSON) : leafPair l r -> leafPair r l.
Proof. destruct l, r; simpl; auto. Qed.

Lemma count_removed_added (t : DiffType) (xs : list JSON) :
  countChanges t (map Removed xs) = countChanges (swapped t) (map Added xs).
Proof.
  unfold countChanges. induction xs as [|x xs IH]; simpl; [reflexivity|].
  destruct t; simpl; auto.
Qed.

Lemma count_added_removed (t : DiffType) (xs : list JSON) :
  countChanges t (map Added xs) = countChanges (swapped t) (map Removed xs).
Proof.
  unfold countChanges. induction xs as [|x xs IH]; simpl; [reflexivity|].
  destruct t; simpl; auto.
Qed.

Lemma zipCompare_swap (f g : JSON -> JSON -> list Change) (t : DiffType)
  (ls rs : list JSON) :
  (forall l r, In l ls -> In r rs ->
     countChanges t (g r l) = countChanges (swapped t) (f l r)) ->
  countChanges t (zipCompare g rs ls)
  = countChanges (swapped t) (zipCompare f ls rs).
Proof.
  revert rs. induction ls as [|l ls IH]; intros [|r rs] H.
  - reflexivity.
  - apply (count_removed_added t (r :: rs)).
  - apply (count_added_removed t (l :: ls)).
  - simpl. rewrite !countChanges_app. f_equal.
    + apply H; now left.
    + apply IH. intros l' r' Hl Hr. apply H; now right.
Qed.

Lemma sumMatched_none (h : JSON -> JSON -> nat)
  (this : list (jsstring * JSON)) :
  sumMatched h [] this = 0.
Proof. induction this as [|[k v] this IH]; simpl; auto. Qed.

Lemma sumMatched_ext (h1 h2 : JSON -> JSON -> nat)
  (other this : list (jsstring * JSON)) :
  (forall k v w, In (k, v) this -> getProperty k other = Some w ->
                 h1 v w = h2 v w) ->
  sumMatched h1 other this = sumMatched h2 other this.
Proof.
  induction this as [|[k v] this IH]; intros H; simpl; [reflexivity|].
  rewrite IH by (intros k' v' w Hin; apply H; now right).
  destruct (getProperty k other) as [w|] eqn:Hg; [|reflexivity].
  now rewrite (H k v w (or_introl eq_refl) Hg).
Qed.

(** One more member on the other side adds the term of its key. *)
Lemma sumMatched_extend (h : JSON -> JSON -> nat) (k0 : jsstring)
  (v0 : JSON) (other this : list (jsstring * JSON)) :
  distinctKeys this = true ->
  getProperty k0 other = None ->
  sumMatched h ((k0, v0) :: other) this
  = match getProperty k0 this with
    | Some w => h w v0
    | None => 0
    end + sumMatched h other this.
Proof.
  intros Hd Hnone. induction this as [|[k w] this IH]; [reflexivity|].
  apply distinctKeys_tail in Hd as [Hk Hd]. simpl in Hk.
  specialize (IH Hd). simpl. rewrite IH.
  rewrite (jsstring_eqb_sym k0 k).
  destruct (jsstring_eqb k k0) eqn:Heq.
  - apply jsstring_eqb_eq in Heq. subst k0. rewrite Hk, Hnone. lia.
  - lia.
Qed.

(** The matched members can be summed from either side. *)
Lemma sumMatched_flip (h : JSON -> JSON -> nat)
  (lm rm : list (jsstring * JSON)) :
  distinctKeys lm = true -> distinctKeys rm = true ->
  sumMatched (fun w v => h v w) lm rm = sumMatched h rm lm.
Proof.
  intros Hl Hr. induction lm as [|[k0 v0] lm IH].
  - apply sumMatched_none.
  - apply distinctKeys_tail in Hl as [Hk Hl]. simpl in Hk.
    rewrite sumMatched_extend by assumption.
    simpl. now rewrite IH.
Qed.

Lemma count_compareMembers (f : JSON -> JSON -> list Change)
  (t : DiffType) (rm lm : list (jsstring * JSON)) :
  countChanges t (compareMembers f rm lm)
  = sumMatched (fun v w => countChanges t (f v w)) rm lm
    + indicator t remove * List.length (newMembers rm lm).
Proof.
  induction lm as [|[k v] lm IH]; [now rewrite Nat.mul_0_r|].
  simpl compareMembers. rewrite countChanges_app, IH. simpl sumMatched.
  unfold newMembers. simpl filter.
  destruct (getProperty k rm) as [w|].
  - lia.
  - simpl List.length. unfold indicator.
    destruct t; simpl; lia.
Qed.

Lemma count_added_members (t : DiffType) (m : list (jsstring * JSON)) :
  countChanges t (map (fun kv => Added (snd kv)) m)
  = indicator t add * List.length m.
Proof.
  unfold countChanges, indicator.
  induction m as [|kv m IH]; simpl; [now rewrite Nat.mul_0_r|].
  destruct t; simpl in *; lia.
Qed.

Lemma indicator_swapped (t u : DiffType) :
  indicator (swapped t) (swapped u) = indicator t u.
Proof. destruct t, u; reflexivity. Qed.

(** Under the positional strategy, swapping left and right swaps the
    counts of [add] and [remove] and keeps those of [equal] and
    [modify]. *)
Lemma compare_swap (l : JSON) :
  wellFormed l = true ->
  forall o d r t,
    arrayDiffMethod o = normal ->
    wellFormed r = true ->
    countChanges t (compare o d r l)
    = countChanges (swapped t) (compare o d l r).
Proof.
  assert (Hleaf : forall o d l r t, leafPair l r ->
    countChanges t (compare o d r l)
    = countChanges (swapped t) (compare o d l r)).
  { intros o d l' r t H.
    rewrite (compare_leaves o d l' r H),
      (compare_leaves o d r l' (leafPair_sym _ _ H)).
    destruct (tooDeep d (maxDepth o));
      [apply summary_swap | apply compareLeaves_swap]. }
  induction l as [|b|n|s|ls IH|lm IH] using JSON_ind;
    intros Hwl o d r t Hm Hwr.
  1-4: apply Hleaf; destruct r; exact I.
  - destruct r as [| | | |rs|]; try (apply Hleaf; exact I).
    rewrite !compare_arrays.
    destruct (tooDeep d (maxDepth o)); [apply summary_swap|].
    rewrite Hm. simpl alignmentSteps. rewrite !play_positional.
    apply zipCompare_swap. intros l r Hl Hr.
    rewrite Forall_forall in IH. apply IH; auto.
    + exact (wellFormed_element _ _ Hwl Hl).
    + exact (wellFormed_element _ _ Hwr Hr).
  - destruct r as [| | | | |rm]; try (apply Hleaf; exact I).
    rewrite !compare_objects.
    destruct (tooDeep d (maxDepth o)); [apply summary_swap|].
    rewrite !countChanges_app, !count_compareMembers, !count_added_members.
    assert (Hboth :
      sumMatched (fun v w => countChanges t (compare o (S d) v w)) lm rm
      = sumMatched
          (fun v w => countChanges (swapped t) (compare o (S d) v w)) rm lm).
    { rewrite <- (sumMatched_flip
                    (fun v w => countChanges (swapped t)
                                  (compare o (S d) v w)) lm rm)
        by (now apply wellFormed_distinct).
      apply sumMatched_ext. intros k w v Hin Hget.
      apply getProperty_some in Hget.
      rewrite Forall_forall in IH. apply (IH (k, v) Hget); auto.
      - exact (wellFormed_member _ _ _ Hwl Hget).
      - exact (wellFormed_member _ _ _ Hwr Hin). }
    rewrite Hboth.
    rewrite <- (indicator_swapped t remove), <- (indicator_swapped t add).
    change (swapped remove) with add. change (swapped add) with remove.
    lia.
Qed.

(** ** The alignment strategy *)

Lemma lcsSteps_cons (x y : JSON) (ls rs : list JSON) :
  lcsSteps (x :: ls) (y :: rs)
  = if JSON_eqb x y then Keep :: lcsSteps ls rs
    else if matches (Insert :: lcsSteps (x :: ls) rs)
            <=? matches (Delete :: lcsSteps ls (y :: rs))
         then Delete :: lcsSteps ls (y :: rs)
         else Insert :: lcsSteps (x :: ls) rs.
Proof. reflexivity. Qed.

Lemma lcsSteps_nil_l (rs : list JSON) :
  lcsSteps [] rs = repeat Insert (List.length rs).
Proof. destruct rs; reflexivity. Qed.

Lemma lcsSteps_nil_r (ls : list JSON) :
  lcsSteps ls [] = repeat Delete (List.length ls).
Proof. destruct ls; reflexivity. Qed.

Lemma keepsIdentical_inserts (ls rs : list JSON) :
  keepsIdentical (repeat Insert (List.length rs)) ls rs.
Proof. induction rs as [|r rs IH]; simpl; auto. Qed.

Lemma keepsIdentical_deletes (ls rs : list JSON) :
  keepsIdentical (repeat Delete (List.length ls)) ls rs.
Proof. induction ls as [|l ls IH]; simpl; auto. Qed.

Lemma keepsIdentical_lcs (ls rs : list JSON) :
  keepsIdentical (lcsSteps ls rs) ls rs.
Proof.
  revert rs. induction ls as [|x ls IHl]; intros rs.
  - rewrite lcsSteps_nil_l. apply keepsIdentical_inserts.
  - induction rs as [|y rs IHr].
    + rewrite lcsSteps_nil_r. apply keepsIdentical_deletes.
    + rewrite lcsSteps_cons. destruct (JSON_eqb x y) eqn:Hxy.
      * apply JSON_eqb_eq in Hxy. simpl. auto.
      * match goal with
        | |- keepsIdentical (if ?b then _ else _) _ _ => destruct b
        end; simpl; auto.
Qed.

Lemma matches_bound (ls rs : list JSON) :
  matches (lcsSteps ls rs) <= List.length ls.
Proof.
  destruct (covers_lcs ls rs) as [H _]. unfold matches. lia.
Qed.

Lemma Subsequence_refl (a : list JSON) : Subsequence a a.
Proof. induction a; constructor; auto. Qed.

Lemma Subsequence_tail (x : JSON) (a b : list JSON) :
  Subsequence (x :: a) b -> Subsequence a b.
Proof.
  induction b as [|y b IH]; intros H; inversion H; subst.
  - now apply sub_skip.
  - apply sub_skip. auto.
Qed.

Lemma Subsequence_insert (a b : list JSON) (e : JSON) :
  Subsequence (a ++ b) (a ++ e :: b).
Proof.
  induction a as [|x a IH]; simpl.
  - apply sub_skip, Subsequence_refl.
  - now apply sub_take.
Qed.

(** A sequence that is a subsequence of the other one is matched whole. *)
Lemma lcs_matches_subsequence (ls rs : list JSON) :
  Subsequence ls rs -> matches (lcsSteps ls rs) = List.length ls.
Proof.
  revert rs. induction ls as [|x ls IHl]; intros rs Hsub.
  - rewrite lcsSteps_nil_l. unfold matches.
    now rewrite (filter_repeat_other isKeep Insert).
  - induction rs as [|y rs IHr]; [inversion Hsub|].
    rewrite lcsSteps_cons. destruct (JSON_eqb x y) eqn:Hxy.
    + unfold matches. simpl. f_equal. apply IHl.
      inversion Hsub; subst; [assumption|].
      now apply Subsequence_tail with x.
    + assert (Hrs : Subsequence (x :: ls) rs).
      { inversion Hsub; subst; [|assumption].
        rewrite JSON_eqb_refl in Hxy. discriminate. }
      specialize (IHr Hrs).
      pose proof (matches_bound ls (y :: rs)) as Hb.
      unfold matches in *. simpl filter. simpl List.length in *.
      rewrite IHr.
      destruct (S (List.length ls)
                <=? List.length (filter isKeep (lcsSteps ls (y :: rs))))
        eqn:Hle.
      * apply Nat.leb_le in Hle. lia.
      * simpl. exact IHr.
Qed.

(** What is played when the matched elements are identical: besides
    [Same], one [Removed] for each [Delete] and one [Added] for each
    [Insert]. *)
Lemma play_identical (f : JSON -> JSON -> list Change) (t : DiffType)
  (steps : list Step) :
  t <> equal ->
  forall ls rs,
    keepsIdentical steps ls rs ->
    (forall l, In l ls -> allSame (f l l)) ->
    countChanges t (play f steps ls rs)
    = indicator t remove * List.length (filter isDelete steps)
      + indicator t add * List.length (filter isInsert steps).
Proof.
  intros Ht. induction steps as [|st steps IH]; intros ls rs Hk Hsame.
  - unfold countChanges. simpl. lia.
  - destruct st; simpl in Hk.
    + destruct ls as [|l ls]; [contradiction|].
      destruct rs as [|r rs]; [contradiction|].
      destruct Hk as [<- Hk]. simpl play. rewrite countChanges_app.
      rewrite (allSame_count t (f l l)) by (auto; apply Hsame; now left).
      rewrite (IH ls rs Hk) by (intros l' Hl'; apply Hsame; now right).
      reflexivity.
    + destruct ls as [|l ls]; [contradiction|].
      simpl play. rewrite countChanges_cons.
      rewrite (IH ls rs Hk) by (intros l' Hl'; apply Hsame; now right).
      simpl filter. simpl List.length. unfold countChanges, indicator.
      destruct t; simpl; lia.
    + destruct rs as [|r rs]; [contradiction|].
      simpl play. rewrite countChanges_cons.
      rewrite (IH ls rs Hk) by assumption.
      simpl filter. simpl List.length. unfold countChanges, indicator.
      destruct t; simpl; lia.
Qed.

Lemma insertAt_split (k : nat) (e : JSON) (s : list JSON) :
  Subsequence s (insertAt k e s)
  /\ List.length (insertAt k e s) = S (List.length s).
Proof.
  unfold insertAt. split.
  - rewrite <- (firstn_skipn k s) at 1. apply Subsequence_insert.
  - rewrite length_app. simpl List.length. rewrite Nat.add_succ_r.
    rewrite <- length_app, firstn_skipn. reflexivity.
Qed.

(** One element inserted, under the alignment strategy: one [Added] and
    nothing else that is not [Same]. *)
Lemma compare_insertion_lcs (o : Options) (s : list JSON) (e : JSON)
  (k : nat) :
  arrayDiffMethod o = lcs ->
  wellFormed (JArray s) = true ->
  forall t, t <> equal ->
    countChanges t (compare o 0 (JArray s) (JArray (insertAt k e s)))
    = indicator t add.
Proof.
  intros Hm Hwf t Ht.
  rewrite compare_arrays.
  replace (tooDeep 0 (maxDepth o)) with false
    by (unfold tooDeep; destruct (maxDepth o); reflexivity).
  rewrite Hm. simpl alignmentSteps.
  rewrite (play_identical _ t _ Ht s (insertAt k e s)
             (keepsIdentical_lcs _ _)).
  - destruct (insertAt_split k e s) as [Hsub Hlen].
    pose proof (lcs_matches_subsequence _ _ Hsub) as Hmatch.
    destruct (covers_lcs s (insertAt k e s)) as [H1 H2].
    unfold matches in Hmatch. rewrite Hlen in H2.
    assert (Hd : List.length
                   (filter isDelete (lcsSteps s (insertAt k e s))) = 0)
      by lia.
    assert (Hi : List.length
                   (filter isInsert (lcsSteps s (insertAt k e s))) = 1)
      by lia.
    rewrite Hd, Hi. lia.
  - intros l Hl. apply compare_same.
    exact (wellFormed_element _ _ Hwf Hl).
Qed.

(** ** The positional strategy on an insertion *)

Lemma zipCompare_app (f : JSON -> JSON -> list Change)
  (a a' b b' : list JSON) :
  List.length a = List.length a' ->
  zipCompare f (a ++ b) (a' ++ b')
  = zipCompare f a a' ++ zipCompare f b b'.
Proof.
  revert a'. induction a as [|x a IH]; intros [|x' a'] H;
    try discriminate; [reflexivity|].
  simpl. rewrite <- app_assoc. f_equal. apply IH. now injection H.
Qed.

Lemma zipCompare_diagonal (f : JSON -> JSON -> list Change)
  (a : list JSON) :
  zipCompare f a a = flat_map (fun x => f x x) a.
Proof. induction a as [|x a IH]; simpl; [reflexivity | now rewrite IH]. Qed.

(** A sequence against itself shifted by one element. *)
Lemma zipCompare_shifted (f : JSON -> JSON -> list Change) (e : JSON)
  (t : list JSON) :
  zipCompare f t (e :: t)
  = flat_map (fun p => f (fst p) (snd p)) (combine t (e :: t))
    ++ [Added (List.last t e)].
Proof.
  revert e. induction t as [|x t IH]; intros e; [reflexivity|].
  change (zipCompare f (x :: t) (e :: x :: t))
    with (f x e ++ zipCompare f t (x :: t)).
  rewrite IH.
  change (combine (x :: t) (e :: x :: t))
    with ((x, e) :: combine t (x :: t)).
  simpl flat_map. rewrite <- app_assoc. do 3 f_equal.
  destruct t as [|j t]; [reflexivity|].
  change (List.last (x :: j :: t) e) with (List.last (j :: t) e).
  f_equal. apply ReplayFacts.last_cons_default.
Qed.

Lemma compare_insertion_positional (o : Options) (s : list JSON)
  (e : JSON) (k : nat) :
  arrayDiffMethod o = normal ->
  compare o 0 (JArray s) (JArray (insertAt k e s))
  = flat_map (fun x => compare o 1 x x) (firstn k s)
    ++ flat_map (fun p => compare o 1 (fst p) (snd p))
                (combine (skipn k s) (e :: skipn k s))
    ++ [Added (List.last (skipn k s) e)].
Proof.
  intros Hm. rewrite compare_arrays.
  replace (tooDeep 0 (maxDepth o)) with false
    by (unfold tooDeep; destruct (maxDepth o); reflexivity).
  rewrite Hm. simpl alignmentSteps. rewrite play_positional.
  unfold insertAt. rewrite <- (firstn_skipn k s) at 1.
  rewrite zipCompare_app by reflexivity.
  now rewrite zipCompare_diagonal, zipCompare_shifted.
Qed.

Lemma in_firstn (k : nat) (s : list JSON) (x : JSON) :
  In x (firstn k s) -> In x s.
Proof.
  intros H. rewrite <- (firstn_skipn k s). apply in_or_app. now left.
Qed.

Lemma in_skipn (k : nat) (s : list JSON) (x : JSON) :
  In x (skipn k s) -> In x s.
Proof.
  intros H. rewrite <- (firstn_skipn k s). apply in_or_app. now right.
Qed.

Lemma compare_scalars_differ (o : Options) (d : nat) (x y : JSON) :
  kindOf x = KScalar -> kindOf y = KScalar -> x <> y ->
  Forall (fun c => typeOf c <> equal) (compare o d x y).
Proof.
  intros Hx Hy Hne.
  assert (Heq : JSON_eqb x y = false).
  { destruct (JSON_eqb x y) eqn:H; [|reflexivity].
    apply JSON_eqb_eq in H. contradiction. }
  rewrite compare_leaves by (destruct x, y; try discriminate; exact I).
  destruct (tooDeep d (maxDepth o)).
  - unfold summary. rewrite Heq. repeat constructor. discriminate.
  - unfold compareLeaves. rewrite Hx, Hy, Heq.
    destruct (showModifications o); repeat constructor; discriminate.
Qed.

End CompareFacts.

Module CompareTheorems.
Import JS Compare CompareFacts.

(** C8.  Whatever the differ returned, the report loop prints one line
    for each record whose type is not [equal], in the order of the
    records and in the form [<lineNumber>:<type> <text>], and prints
    nothing for a record of type [equal]: the lines printed are as many as
    the records that are not [equal]. *)
Theorem report_prints_each_non_equal (results : list (list DiffResult))
  (console : Console) :
  report results console
  = console ++ map reportLine (filter printed (List.concat results))
  /\ List.length (report results [])
     = List.length (filter printed (List.concat results))
  /\ (forall r, In r (List.concat results) -> type r = equal ->
                ~ In r (filter printed (List.concat results))).
Proof.
  split; [apply report_lines | split].
  - rewrite report_lines. simpl. now rewrite length_map.
  - intros r _ Heq Hin. apply filter_In in Hin as [_ Hp].
    unfold printed in Hp. rewrite Heq in Hp. discriminate.
Qed.

Section Described.

Variable describe : Change -> jsstring.

(** C6.  A tree compared with itself gives only records of type [equal],
    whatever the options: no [add], [remove] or [modify].  Trees are
    finite terms, hence acyclic; [wellFormed] says that the keys of each
    object are distinct, as they are in every JavaScript object. *)
Theorem diff_self_only_equal (o : Options) (x : JSON) :
  wellFormed x = true ->
  Forall (fun r => type r = equal) (diff describe o x x).
Proof.
  intros Hwf. unfold diff. apply allSame_numbered.
  now apply compare_same.
Qed.

(** C7.  Under the positional strategy, the one the source configures,
    swapping left and right turns the [add] records into as many [remove]
    records and the [remove] records into as many [add] records, and
    leaves the numbers of [equal] and [modify] records unchanged. *)
Theorem diff_swap_counts (o : Options) (left right : JSON) :
  arrayDiffMethod o = normal ->
  wellFormed left = true ->
  wellFormed right = true ->
  count add (diff describe o right left)
  = count remove (diff describe o left right)
  /\ count remove (diff describe o right left)
     = count add (diff describe o left right)
  /\ count equal (diff describe o right left)
     = count equal (diff describe o left right)
  /\ count modify (diff describe o right left)
     = count modify (diff describe o left right).
Proof.
  intros Hm Hl Hr. unfold diff. rewrite !count_numbered.
  repeat split.
  - apply (compare_swap left Hl o 0 right add Hm Hr).
  - apply (compare_swap left Hl o 0 right remove Hm Hr).
  - apply (compare_swap left Hl o 0 right equal Hm Hr).
  - apply (compare_swap left Hl o 0 right modify Hm Hr).
Qed.

(** C9, as amended.  Let [e] be inserted into [s] at an index before its
    end.  Under the alignment strategy the diff of [s] against the result
    has exactly one [add] record and no [modify] and no [remove] record.
    Under the positional strategy the elements before the insertion
    point give only [equal] records, the last element of the result gives
    one [add] record, and each index from the insertion point on gives
    the records of comparing the element of [s] with the element shifted
    onto its index: only [equal] records where the two are identical, and
    no [equal] record where they are scalars that differ. *)
Theorem insertion_under_both_strategies (o : Options) (s : list JSON)
  (e : JSON) (k : nat) :
  k < List.length s ->
  wellFormed (JArray s) = true ->
  (arrayDiffMethod o = lcs ->
     count add (diff describe o (JArray s) (JArray (insertAt k e s))) = 1
     /\ count modify (diff describe o (JArray s) (JArray (insertAt k e s)))
        = 0
     /\ count remove (diff describe o (JArray s) (JArray (insertAt k e s)))
        = 0)
  /\ (arrayDiffMethod o = normal ->
        map type (diff describe o (JArray s) (JArray (insertAt k e s)))
        = map typeOf (flat_map (fun x => compare o 1 x x) (firstn k s))
          ++ map typeOf
               (flat_map (fun p => compare o 1 (fst p) (snd p))
                         (combine (skipn k s) (e :: skipn k s)))
          ++ [add]
        /\ allSame (flat_map (fun x => compare o 1 x x) (firstn k s))
        /\ (forall x y,
              In (x, y) (combine (skipn k s) (e :: skipn k s)) ->
              x = y -> allSame (compare o 1 x y))
        /\ (forall x y,
              In (x, y) (combine (skipn k s) (e :: skipn k s)) ->
              kindOf x = KScalar -> kindOf y = KScalar -> x <> y ->
              Forall (fun c => typeOf c <> equal) (compare o 1 x y))).
Proof.
  intros Hk Hs. split.
  - intros Hm. unfold diff. rewrite !count_numbered.
    repeat split.
    + now rewrite (compare_insertion_lcs o s e k Hm Hs add).
    + now rewrite (compare_insertion_lcs o s e k Hm Hs modify).
    + now rewrite (compare_insertion_lcs o s e k Hm Hs remove).
  - intros Hm. repeat split.
    + unfold diff. rewrite type_numbered.
      rewrite (compare_insertion_positional o s e k Hm).
      now rewrite !map_app.
    + rewrite <- zipCompare_diagonal. apply zipCompare_same.
      apply Forall_forall. intros x Hx. apply compare_same.
      apply (wellFormed_element s x Hs).
      now apply (in_firstn k).
    + intros x y Hin <-. apply compare_same.
      apply in_combine_l in Hin.
      apply (wellFormed_element s x Hs).
      now apply (in_skipn k).
    + intros x y _. apply compare_scalars_differ.
Qed.

End Described.

End CompareTheorems.

(* ===================================================================== *)
(** * The second script on concrete snapshots *)
(* ===================================================================== *)

Module CompareExamples.
Import JS Compare CompareTheorems.

Lemma diff_self_only_equal_witness :
  Forall (fun r => type r = equal)
         (diff describeByType sourceOptions sampleLeft sampleLeft).
Proof.
  apply (diff_self_only_equal describeByType sourceOptions sampleLeft).
  vm_compute. reflexivity.
Defined.

Lemma diff_swap_counts_witness :
  count add (diff describeByType sourceOptions sampleRight sampleLeft)
  = count remove (diff describeByType sourceOptions sampleLeft sampleRight)
  /\ count remove (diff describeByType sourceOptions sampleRight sampleLeft)
     = count add (diff describeByType sourceOptions sampleLeft sampleRight)
  /\ count equal (diff describeByType sourceOptions sampleRight sampleLeft)
     = count equal (diff describeByType sourceOptions sampleLeft sampleRight)
  /\ count modify (diff describeByType sourceOptions sampleRight sampleLeft)
     = count modify
         (diff describeByType sourceOptions sampleLeft sampleRight).
Proof.
  apply (diff_swap_counts describeByType sourceOptions sampleLeft
           sampleRight); vm_compute; reflexivity.
Defined.

(** C9, as the specification states it.  One inserted at the head of the
    sequence of two ones: under the positional strategy the two elements
    from the insertion point on give [equal] records, and the only record
    that is not [equal] is the [add] of the last element. *)
Lemma positional_insertion_among_repeats :
  map type
      (diff describeByType sourceOptions
            (JArray [num "1"; num "1"])
            (JArray (insertAt 0 (num "1") [num "1"; num "1"])))
  = [equal; equal; add].
Proof. vm_compute. reflexivity. Qed.

Lemma insertion_under_both_strategies_witness :
  (count add (diff describeByType lcsOptions
                   (JArray [num "1"; num "2"; num "3"])
                   (JArray (insertAt 1 (num "9")
                                     [num "1"; num "2"; num "3"]))) = 1
   /\ count modify (diff describeByType lcsOptions
                         (JArray [num "1"; num "2"; num "3"])
                         (JArray (insertAt 1 (num "9")
                                           [num "1"; num "2"; num "3"])))
      = 0
   /\ count remove (diff describeByType lcsOptions
                         (JArray [num "1"; num "2"; num "3"])
                         (JArray (insertAt 1 (num "9")
                                           [num "1"; num "2"; num "3"])))
      = 0)
  /\ map type (diff describeByType sourceOptions
                    (JArray [num "1"; num "2"; num "3"])
                    (JArray (insertAt 1 (num "9")
                                      [num "1"; num "2"; num "3"])))
     = [equal; modify; modify; add].
Proof.
  split.
  - apply (proj1 (insertion_under_both_strategies describeByType lcsOptions
                    [num "1"; num "2"; num "3"] (num "9") 1
                    ltac:(simpl; lia) eq_refl)).
    reflexivity.
  - destruct (proj2 (insertion_under_both_strategies describeByType
                       sourceOptions [num "1"; num "2"; num "3"] (num "9") 1
                       ltac:(simpl; lia) eq_refl) eq_refl)
      as [H _].
    rewrite H. vm_compute. reflexivity.
Defined.

End CompareExamples.

(* ===================================================================== *)
(** * Further properties of the first script *)
(* ===================================================================== *)

Module ReplayMore.
Import JS Replay Scripts ReplayFacts ReplayTheorems.

(** ** How [start] can end *)

(** When [forEach] throws, some element is the first to make the
    callback throw. *)
Lemma forEach_throw_inv {A S : Type} (f : A -> S -> Completion S)
  (l : list A) (s : S) (e : Exception) :
  forEach f l s = Throw e ->
  exists before x after s1,
    l = before ++ x :: after
    /\ forEach f before s = Normal s1
    /\ f x s1 = Throw e.
Proof.
  revert s. induction l as [|x l IH]; intros s H; [discriminate|].
  simpl in H. destruct (f x s) as [s'|e'] eqn:Hx; simpl in H.
  - destruct (IH s' H) as (before & y & after & s1 & -> & Hb & Hy).
    exists (x :: before), y, after, s1. simpl. rewrite Hx. auto.
  - injection H as ->. exists [], x, l, s. auto.
Qed.

Lemma forEach_throw_app {A S : Type} (f : A -> S -> Completion S)
  (l more : list A) (s : S) (e : Exception) :
  forEach f l s = Throw e -> forEach f (l ++ more) s = Throw e.
Proof. intros H. now rewrite forEach_app, H. Qed.

(** Why a frame can make [deliver] throw. *)
Lemma deliver_throw_inv (f : Frame) (c : Controller) (e : Exception) :
  deliver f c = Throw e ->
  (exists p, f = Payload p /\ parseText p = None /\ e = SyntaxError p)
  \/ (closeRequested c = true /\ e = TypeError ERR_INVALID_STATE
      /\ (f = Terminal
          \/ exists p v, f = Payload p /\ parseText p = Some v)).
Proof.
  destruct f as [|p]; simpl.
  - unfold close. destruct (closeRequested c); [|discriminate].
    intros H. injection H as <-. right. auto.
  - unfold JSON_parse. destruct (parseText p) as [v|] eqn:Hp; simpl.
    + unfold enqueue. destruct (closeRequested c); [|discriminate].
      intros H. injection H as <-. right. repeat split; auto.
      right. eauto.
    + intros H. injection H as <-. left. eauto.
Qed.

(** Frames that go through, seen from the result. *)
Lemma deliver_normal_iff (fs : list Frame) (events : list JSON)
  (isClosed : bool) :
  forEach deliver fs newController
  = Normal {| queue := events; closeRequested := isClosed |}
  <-> exists payloads,
        fs = map Payload payloads ++ (if isClosed then [Terminal] else [])
        /\ map parseText payloads = map Some events.
Proof.
  split.
  - intros H.
    destruct (deliver_normal fs newController _ eq_refl H)
      as (ps & evs & Hfs & Hp & Hq).
    simpl in *. subst evs. eauto.
  - intros (ps & -> & Hp). rewrite forEach_app. unfold newController.
    rewrite (deliver_payloads _ _ Hp). simpl.
    destruct isClosed; reflexivity.
Qed.

Lemma newReadableStream_normal_iff (content : jsstring)
  (events : list JSON) (isClosed : bool) :
  newReadableStream content
  = Normal {| chunks := events; closed := isClosed |}
  <-> exists payloads,
        frames content
        = map Payload payloads ++ (if isClosed then [Terminal] else [])
        /\ map parseText payloads = map Some events.
Proof.
  rewrite <- deliver_normal_iff, newReadableStream_frames.
  destruct (forEach deliver (frames content) newController) as [[q b]|e];
    simpl; split; intros H; try discriminate; injection H as -> ->;
    reflexivity.
Qed.

Lemma newReadableStream_throw_iff (content : jsstring) (e : Exception) :
  newReadableStream content = Throw e
  <-> forEach deliver (frames content) newController = Throw e.
Proof.
  rewrite newReadableStream_frames.
  destruct (forEach deliver (frames content) newController) as [c|e'];
    simpl; split; intros H; try discriminate; injection H as ->;
    reflexivity.
Qed.

Section Outcomes.

Variable State : Type.
Variable initialState : State.
Variable merge : State -> JSON -> State.

Local Abbreviation lastSnapshot := (lastSnapshot State initialState merge).
Local Abbreviation main := (main State initialState merge).

Lemma finalState_some (events : list JSON) (st : State) :
  finalState initialState merge events = Some st
  <-> events <> [] /\ st = fold_left merge events initialState.
Proof.
  destruct events as [|ev evs]; simpl.
  - split; [discriminate | intros [H _]; contradiction].
  - split.
    + intros H. injection H as <-. split; [discriminate | reflexivity].
    + intros [_ ->]. reflexivity.
Qed.

(** The three ways the script can end, seen from the stream. *)
Lemma main_cases (content : jsstring) :
  match newReadableStream content with
  | Throw e => main content = Throws e
  | Normal stream =>
      if closed stream
      then match finalState initialState merge (chunks stream) with
           | Some st => main content = Returns (Indented State 2 st)
           | None => main content = Throws (TypeError ERR_INVALID_ARG_TYPE)
           end
      else main content = NeverSettles
  end.
Proof.
  destruct (newReadableStream content) as [[evs b]|e] eqn:Hs.
  - unfold Replay.main.
    rewrite (lastSnapshot_of_stream State initialState merge _ _ _ Hs).
    simpl. destruct b; [|reflexivity].
    destruct (finalState initialState merge evs); reflexivity.
  - now apply main_throw, lastSnapshot_throw.
Qed.

(** X1.  The script writes [standard.json] exactly when the frames are
    one payload or more, each a JSON text, followed by one sentinel that
    is the last frame; what it writes is then the state reached by
    merging all the events in order, indented by two spaces. *)
Theorem main_returns_iff (content : jsstring) (written : Document State) :
  main content = Returns written
  <-> exists payloads events,
        frames content = map Payload payloads ++ [Terminal]
        /\ map parseText payloads = map Some events
        /\ events <> []
        /\ written
           = Indented State 2 (fold_left merge events initialState).
Proof.
  pose proof (main_cases content) as Hc. split.
  - intros H.
    destruct (newReadableStream content) as [[evs b]|e] eqn:Hs;
      [|rewrite Hc in H; discriminate].
    simpl in Hc. destruct b; [|rewrite Hc in H; discriminate].
    destruct (finalState initialState merge evs) as [st|] eqn:Hf;
      rewrite Hc in H; [|discriminate].
    injection H as <-.
    apply newReadableStream_normal_iff in Hs as (ps & Hfs & Hp).
    apply finalState_some in Hf as [Hne ->].
    exists ps, evs. auto.
  - intros (ps & evs & Hfs & Hp & Hne & ->).
    assert (Hs : newReadableStream content
                 = Normal {| chunks := evs; closed := true |})
      by (apply newReadableStream_normal_iff; eauto).
    rewrite Hs in Hc. simpl in Hc.
    destruct (finalState initialState merge evs) as [st|] eqn:Hf.
    + apply finalState_some in Hf as [_ ->]. exact Hc.
    + destruct evs; [contradiction | discriminate].
Qed.

(** X2.  The script waits for ever exactly when no frame is the sentinel
    and every payload is a JSON text: the empty content and the content
    of blank lines only are among these. *)
Theorem main_never_settles_iff (content : jsstring) :
  main content = NeverSettles
  <-> exists payloads events,
        frames content = map Payload payloads
        /\ map parseText payloads = map Some events.
Proof.
  pose proof (main_cases content) as Hc. split.
  - intros H.
    destruct (newReadableStream content) as [[evs b]|e] eqn:Hs;
      [|rewrite Hc in H; discriminate].
    simpl in Hc. destruct b.
    + destruct (finalState initialState merge evs); rewrite Hc in H;
        discriminate.
    + apply newReadableStream_normal_iff in Hs as (ps & Hfs & Hp).
      rewrite app_nil_r in Hfs. eauto.
  - intros (ps & evs & Hfs & Hp).
    assert (Hs : newReadableStream content
                 = Normal {| chunks := evs; closed := false |}).
    { apply newReadableStream_normal_iff. exists ps.
      now rewrite app_nil_r. }
    rewrite Hs in Hc. exact Hc.
Qed.

Lemma start_never_invalid_arg (content : jsstring) :
  newReadableStream content <> Throw (TypeError ERR_INVALID_ARG_TYPE).
Proof.
  intros H. apply newReadableStream_throw_iff in H.
  apply forEach_throw_inv in H as (b & f & a & c1 & _ & _ & Hf).
  apply deliver_throw_inv in Hf as [(p & _ & _ & He)|(_ & He & _)];
    discriminate.
Qed.

(** X3.  The persistence step fails, with the [TypeError] of
    [writeFileSync], exactly when the sentinel is the only frame: it is
    the only way for the loop to end with nothing read. *)
Theorem main_invalid_arg_iff (content : jsstring) :
  main content = Throws (TypeError ERR_INVALID_ARG_TYPE)
  <-> frames content = [Terminal].
Proof.
  pose proof (main_cases content) as Hc. split.
  - intros H.
    destruct (newReadableStream content) as [[evs b]|e] eqn:Hs.
    + simpl in Hc. destruct b; [|rewrite Hc in H; discriminate].
      destruct (finalState initialState merge evs) as [st|] eqn:Hf;
        rewrite Hc in H; [discriminate|].
      destruct evs; [|discriminate].
      apply newReadableStream_normal_iff in Hs as (ps & Hfs & Hp).
      destruct ps; [exact Hfs | discriminate].
    + rewrite Hc in H. injection H as ->.
      exfalso. exact (start_never_invalid_arg content Hs).
  - intros Hfs.
    assert (Hs : newReadableStream content
                 = Normal {| chunks := []; closed := true |}).
    { apply newReadableStream_normal_iff. exists []. auto. }
    rewrite Hs in Hc. exact Hc.
Qed.

Lemma main_throws_start (content : jsstring) (e : Exception) :
  e <> TypeError ERR_INVALID_ARG_TYPE ->
  (main content = Throws e
   <-> forEach deliver (frames content) newController = Throw e).
Proof.
  intros Hne. rewrite <- newReadableStream_throw_iff.
  pose proof (main_cases content) as Hc.
  destruct (newReadableStream content) as [[evs b]|e'] eqn:Hs.
  - simpl in Hc. split; [|discriminate]. intros H.
    destruct b; [|rewrite Hc in H; discriminate].
    destruct (finalState initialState merge evs); rewrite Hc in H;
      [discriminate|].
    injection H as <-. contradiction.
  - rewrite Hc. split; intros H; injection H as ->; reflexivity.
Qed.

(** X4.  The script ends with the [TypeError] of a controller that is
    already closed exactly when the first sentinel, reached through
    payloads that are JSON texts, is followed by a frame that is again
    the sentinel or is a payload that is a JSON text. *)
Theorem main_invalid_state_iff (content : jsstring) :
  main content = Throws (TypeError ERR_INVALID_STATE)
  <-> exists payloads events next after,
        frames content = map Payload payloads ++ Terminal :: next :: after
        /\ map parseText payloads = map Some events
        /\ (next = Terminal
            \/ exists p v, next = Payload p /\ parseText p = Some v).
Proof.
  rewrite main_throws_start by discriminate. split.
  - intros H.
    apply forEach_throw_inv in H as (b & f & a & [q cl] & Hfs & Hb & Hf).
    apply deliver_throw_inv in Hf as [(p & _ & _ & He)|(Hcl & _ & Hnext)];
      [discriminate|].
    simpl in Hcl. subst cl.
    apply deliver_normal_iff in Hb as (ps & -> & Hp).
    exists ps, q, f, a. rewrite Hfs, <- app_assoc. auto.
  - intros (ps & evs & next & after & Hfs & Hp & Hnext).
    rewrite Hfs.
    change (map Payload ps ++ Terminal :: next :: after)
      with (map Payload ps ++ [Terminal] ++ next :: after).
    rewrite app_assoc, forEach_app.
    rewrite (proj2 (deliver_normal_iff (map Payload ps ++ [Terminal])
                      evs true)) by eauto.
    simpl. destruct Hnext as [->|(p & v & -> & Hv)]; simpl.
    + reflexivity.
    + unfold JSON_parse. rewrite Hv. reflexivity.
Qed.

(** X5.  The script ends with the [SyntaxError] of a text exactly when
    that text is the payload of a frame, is not a JSON text, and the
    frames before it are payloads that are JSON texts, followed or not by
    one sentinel. *)
Theorem main_syntax_error_iff (content : jsstring) (text : jsstring) :
  main content = Throws (SyntaxError text)
  <-> exists payloads events (sentinelSeen : bool) after,
        frames content
        = (map Payload payloads
           ++ (if sentinelSeen then [Terminal] else []))
          ++ Payload text :: after
        /\ map parseText payloads = map Some events
        /\ parseText text = None.
Proof.
  rewrite main_throws_start by discriminate. split.
  - intros H.
    apply forEach_throw_inv in H as (b & f & a & [q cl] & Hfs & Hb & Hf).
    apply deliver_throw_inv in Hf as [(p & -> & Hp & He)|(_ & He & _)];
      [|discriminate].
    injection He as ->.
    apply deliver_normal_iff in Hb as (ps & -> & Hps).
    exists ps, q, cl, a. auto.
  - intros (ps & evs & seen & after & Hfs & Hp & Hnone).
    rewrite Hfs, forEach_app.
    rewrite (proj2 (deliver_normal_iff _ evs seen)) by eauto.
    simpl. unfold JSON_parse. rewrite Hnone. reflexivity.
Qed.

End Outcomes.

(** ** Records *)

Lemma bind_normal {A : Type} (m : Completion A) : bind m Normal = m.
Proof. destruct m; reflexivity. Qed.

Lemma forEach_single {A S : Type} (f : A -> S -> Completion S) (x : A)
  (s : S) :
  forEach f [x] s = f x s.
Proof. simpl. apply bind_normal. Qed.

(** X6.  A record that is not blank and has six code units or fewer once
    trimmed, a bare sentinel without its prefix for one, is given to
    [JSON.parse] as the empty text: the callback throws the [SyntaxError]
    of the empty text, whether the controller is closed or not. *)
Theorem short_record_throws (line : jsstring) (controller : Controller) :
  trim line <> [] ->
  List.length (trim line) <= 6 ->
  onLine line controller = Throw (SyntaxError []).
Proof.
  intros Hne Hlen. unfold onLine.
  destruct (trim line) as [|c t] eqn:Ht; [contradiction|].
  simpl isEmpty. cbv iota.
  assert (Hs : slice 6 (c :: t) = []).
  { unfold slice. apply skipn_all2. exact Hlen. }
  rewrite Hs. reflexivity.
Qed.

Lemma split_from_none (sep s cur : jsstring) :
  occurs sep s = false ->
  split_from sep s 0 cur = [rev cur ++ s].
Proof.
  revert cur. induction s as [|c s IH]; intros cur H.
  - simpl. now rewrite app_nil_r.
  - simpl in H. apply orb_false_iff in H as [Hs Ho].
    cbn [split_from]. rewrite Hs, (IH (c :: cur) Ho). simpl.
    now rewrite <- app_assoc.
Qed.

(** X7.  A content in which no two line feeds follow each other is one
    single record, whatever else it holds: carriage returns with the
    line feeds, for instance.  [start] is then the callback on the whole
    content. *)
Theorem start_without_blank_line (content : jsstring)
  (controller : Controller) :
  occurs [LF; LF] content = false ->
  split [LF; LF] content = [content]
  /\ start content controller = onLine content controller.
Proof.
  intros H.
  assert (Hs : split [LF; LF] content = [content])
    by (unfold split; now rewrite split_from_none).
  split; [exact Hs|].
  unfold start. rewrite Hs. apply forEach_single.
Qed.

(** [split] at blank lines, step by step. *)
Lemma split_from_skip (c : N) (s cur : jsstring) (k : nat) :
  split_from [LF; LF] (c :: s) (S k) cur = split_from [LF; LF] s k cur.
Proof. reflexivity. Qed.

Lemma split_from_scan (c : N) (s cur : jsstring) :
  split_from [LF; LF] (c :: s) 0 cur
  = if startsWith [LF; LF] (c :: s)
    then rev cur :: split_from [LF; LF] s 1 []
    else split_from [LF; LF] s 0 (c :: cur).
Proof. reflexivity. Qed.

Lemma split_from_nonempty (s cur : jsstring) (k : nat) :
  split_from [LF; LF] s k cur <> [].
Proof.
  revert k cur. induction s as [|c s IH]; intros k cur; [discriminate|].
  destruct k as [|k]; [|rewrite split_from_skip; apply IH].
  rewrite split_from_scan.
  destruct (startsWith [LF; LF] (c :: s)); [discriminate | apply IH].
Qed.

Lemma joinRecords_cons (r : jsstring) (rs : list jsstring) :
  rs <> [] -> joinRecords (r :: rs) = r ++ [LF; LF] ++ joinRecords rs.
Proof. destruct rs; [contradiction | reflexivity]. Qed.

Lemma startsWith_blank_line (c : N) (s : jsstring) :
  startsWith [LF; LF] (c :: s) = true ->
  c = LF /\ exists s', s = LF :: s'.
Proof.
  cbn [startsWith]. destruct s as [|d s']; [now rewrite andb_false_r|].
  rewrite andb_true_r. intros H. apply andb_true_iff in H as [Hc Hd].
  apply N.eqb_eq in Hc, Hd. subst. split; [reflexivity | eauto].
Qed.

Lemma join_split_from (s cur : jsstring) (k : nat) :
  joinRecords (split_from [LF; LF] s k cur) = rev cur ++ skipn k s.
Proof.
  revert k cur. induction s as [|c s IH]; intros k cur.
  - simpl. now rewrite skipn_nil, app_nil_r.
  - destruct k as [|k]; [|rewrite split_from_skip; apply IH].
    rewrite split_from_scan.
    destruct (startsWith [LF; LF] (c :: s)) eqn:Hs.
    + apply startsWith_blank_line in Hs as [-> [s' ->]].
      rewrite joinRecords_cons by apply split_from_nonempty.
      rewrite IH. reflexivity.
    + rewrite IH. simpl. now rewrite <- app_assoc.
Qed.

(** X8.  Cutting the content at blank lines loses nothing: the records,
    joined again by blank lines, are the content. *)
Theorem join_split (content : jsstring) :
  joinRecords (split [LF; LF] content) = content.
Proof. unfold split. now rewrite join_split_from. Qed.

Lemma split_from_app (a b cur : jsstring) (k : nat) :
  List.last a 0%N <> LF ->
  k <= List.length a ->
  split_from [LF; LF] (a ++ [LF; LF] ++ b) k cur
  = split_from [LF; LF] a k cur ++ split [LF; LF] b.
Proof.
  revert k cur. induction a as [|c a IH]; intros k cur Hlast Hk.
  - assert (k = 0) by (simpl in Hk; lia). subst k. reflexivity.
  - assert (Hlast' : List.last a 0%N <> LF \/ a = []).
    { destruct a as [|d a]; [now right | left; exact Hlast]. }
    destruct k as [|k].
    + change ((c :: a) ++ [LF; LF] ++ b) with (c :: a ++ [LF; LF] ++ b).
      rewrite !split_from_scan.
      assert (Hsame : startsWith [LF; LF] (c :: a ++ [LF; LF] ++ b)
                      = startsWith [LF; LF] (c :: a)).
      { destruct a as [|d a]; [|reflexivity].
        simpl app. cbn [startsWith]. simpl in Hlast.
        rewrite N.eqb_refl, !andb_true_r, andb_false_r.
        apply N.eqb_neq. intros H. apply Hlast. now rewrite H. }
      rewrite Hsame.
      destruct (startsWith [LF; LF] (c :: a)) eqn:Hs.
      * apply startsWith_blank_line in Hs as [_ [a' Ha]].
        rewrite (IH 1 []); [reflexivity | |].
        -- destruct Hlast' as [H|H]; [exact H | subst; discriminate].
        -- subst a. simpl. lia.
      * destruct Hlast' as [H| ->].
        -- apply IH; [exact H | lia].
        -- reflexivity.
    + change ((c :: a) ++ [LF; LF] ++ b) with (c :: a ++ [LF; LF] ++ b).
      rewrite !split_from_skip. simpl in Hk.
      destruct Hlast' as [H| ->].
      * apply IH; [exact H | lia].
      * assert (k = 0) by (simpl in Hk; lia). subst k. reflexivity.
Qed.

(** X9.  Two contents joined by a blank line are handled one after the
    other, provided the first does not end with a line feed: the records
    are those of the first followed by those of the second, and [start]
    on the whole is [start] on the first and then, if it did not throw,
    [start] on the second from the controller it left. *)
Theorem start_app (a b : jsstring) (controller : Controller) :
  List.last a 0%N <> LF ->
  split [LF; LF] (a ++ [LF; LF] ++ b)
  = split [LF; LF] a ++ split [LF; LF] b
  /\ start (a ++ [LF; LF] ++ b) controller
     = (controller' <- start a controller ;; start b controller').
Proof.
  intros Hlast.
  assert (Hs : split [LF; LF] (a ++ [LF; LF] ++ b)
               = split [LF; LF] a ++ split [LF; LF] b)
    by (unfold split at 1 2; apply split_from_app; [exact Hlast | lia]).
  split; [exact Hs|].
  unfold start. rewrite Hs. apply forEach_app.
Qed.

(** ** White space *)

Lemma trimStart_white (w l : jsstring) :
  allWhiteSpace w = true -> trimStart (w ++ l) = trimStart l.
Proof.
  induction w as [|c w IH]; simpl; [reflexivity|].
  intros H. apply andb_true_iff in H as [Hc Hw]. rewrite Hc. auto.
Qed.

Lemma trimEnd_all_white (w : jsstring) :
  allWhiteSpace w = true -> trimEnd w = [].
Proof.
  induction w as [|c w IH]; simpl; [reflexivity|].
  intros H. apply andb_true_iff in H as [Hc Hw].
  now rewrite (IH Hw), Hc.
Qed.

Lemma trimEnd_white (l w : jsstring) :
  allWhiteSpace w = true -> trimEnd (l ++ w) = trimEnd l.
Proof.
  intros Hw. induction l as [|c l IH]; simpl.
  - now apply trimEnd_all_white.
  - now rewrite IH.
Qed.

Lemma trim_white_end (l w : jsstring) :
  allWhiteSpace w = true -> trim (l ++ w) = trim l.
Proof.
  intros Hw. unfold trim. induction l as [|c l IH]; simpl.
  - rewrite <- (app_nil_r w), trimStart_white by exact Hw. reflexivity.
  - destruct (isWhiteSpace c); [exact IH|].
    apply (trimEnd_white (c :: l) w Hw).
Qed.

Lemma trim_white (w1 l w2 : jsstring) :
  allWhiteSpace w1 = true -> allWhiteSpace w2 = true ->
  trim (w1 ++ l ++ w2) = trim l.
Proof.
  intros H1 H2. rewrite <- (trim_white_end l w2 H2).
  unfold trim. now rewrite trimStart_white.
Qed.

Lemma trim_all_white (w : jsstring) : allWhiteSpace w = true -> trim w = [].
Proof.
  intros H. unfold trim.
  rewrite <- (app_nil_r w), (trimStart_white w [] H). reflexivity.
Qed.

(** X10.  White space around a record, such as the line feed that a run
    of three line feeds leaves in front of the next record or a carriage
    return at its end, does not change what the callback does with it;
    and a record of white space only is passed over wherever it stands. *)
Theorem white_space_is_insignificant :
  (forall w1 line w2 controller,
      allWhiteSpace w1 = true -> allWhiteSpace w2 = true ->
      onLine (w1 ++ line ++ w2) controller = onLine line controller)
  /\ (forall before blank after controller,
        allWhiteSpace blank = true ->
        forEach onLine (before ++ blank :: after) controller
        = forEach onLine (before ++ after) controller).
Proof.
  split.
  - intros w1 line w2 c H1 H2. unfold onLine.
    now rewrite trim_white.
  - intros before blank after c Hb. rewrite !forEach_app.
    destruct (forEach onLine before c) as [c1|e]; simpl; [|reflexivity].
    unfold onLine at 1. rewrite (trim_all_white blank Hb). reflexivity.
Qed.

(** X20.  The six code units of the prefix are never looked at: two
    records that differ in their prefix only are handled alike. *)
Theorem prefix_is_ignored (p p' payload line line' : jsstring)
  (controller : Controller) :
  List.length p = 6 ->
  List.length p' = 6 ->
  trim line = p ++ payload ->
  trim line' = p' ++ payload ->
  onLine line controller = onLine line' controller.
Proof.
  intros Hp Hp' Hl Hl'. unfold onLine. rewrite Hl, Hl'.
  assert (Hs : forall q, List.length q = 6 -> slice 6 (q ++ payload) = payload).
  { intros q Hq. unfold slice.
    rewrite skipn_app, Hq, skipn_all2 by lia. reflexivity. }
  rewrite (Hs p Hp), (Hs p' Hp').
  destruct p; [discriminate|]. destruct p'; [discriminate|]. reflexivity.
Qed.

(** ** No record holds a blank line *)

Lemma occurs_short (s : jsstring) :
  List.length s <= 1 -> occurs [LF; LF] s = false.
Proof.
  destruct s as [|c [|d s]]; simpl; intros H; try lia;
    now rewrite ?andb_false_r.
Qed.

Lemma startsWith_two (c d : N) (s s' : jsstring) :
  startsWith [LF; LF] (c :: d :: s) = startsWith [LF; LF] (c :: d :: s').
Proof. cbn [startsWith]. reflexivity. Qed.

Lemma occurs_prefix (l x : jsstring) :
  occurs [LF; LF] (l ++ x) = false -> occurs [LF; LF] l = false.
Proof.
  induction l as [|c l IH]; [reflexivity|].
  change ((c :: l) ++ x) with (c :: l ++ x). cbn [occurs].
  intros H. apply orb_false_iff in H as [Hs Ho].
  rewrite (IH Ho), orb_false_r.
  destruct l as [|d l].
  - cbn [startsWith]. now rewrite andb_false_r.
  - rewrite <- Hs. apply startsWith_two.
Qed.

Lemma occurs_extend (l : jsstring) (c d : N) (s : jsstring) :
  occurs [LF; LF] (l ++ [c]) = false ->
  startsWith [LF; LF] (c :: d :: s) = false ->
  occurs [LF; LF] (l ++ [c; d]) = false.
Proof.
  intros Hl Hcd. induction l as [|x l IH].
  - simpl app. cbn [occurs]. rewrite (startsWith_two c d [] s), Hcd.
    simpl. now rewrite andb_false_r.
  - change ((x :: l) ++ [c; d]) with (x :: l ++ [c; d]).
    change ((x :: l) ++ [c]) with (x :: l ++ [c]) in Hl.
    cbn [occurs] in *. apply orb_false_iff in Hl as [Hs Ho].
    rewrite (IH Ho), orb_false_r. rewrite <- Hs.
    destruct l as [|y l]; apply startsWith_two.
Qed.

Lemma split_from_free (s cur : jsstring) (k : nat) :
  (k = 0 -> occurs [LF; LF] (rev cur ++ firstn 1 s) = false) ->
  (k <> 0 -> cur = []) ->
  Forall (fun r => occurs [LF; LF] r = false)
         (split_from [LF; LF] s k cur).
Proof.
  revert k cur. induction s as [|c s IH]; intros k cur H0 H1.
  - simpl. constructor; [|constructor].
    destruct k as [|k].
    + specialize (H0 eq_refl). simpl in H0. now rewrite app_nil_r in H0.
    + rewrite H1 by discriminate. reflexivity.
  - destruct k as [|k].
    + specialize (H0 eq_refl). simpl firstn in H0.
      rewrite split_from_scan.
      destruct (startsWith [LF; LF] (c :: s)) eqn:Hs.
      * constructor; [exact (occurs_prefix _ _ H0)|].
        apply IH; [discriminate | reflexivity].
      * apply IH; [|intros H; contradiction]. intros _.
        simpl rev. rewrite <- app_assoc.
        destruct s as [|d s]; [exact H0|].
        simpl firstn. simpl app. exact (occurs_extend _ c d s H0 Hs).
    + rewrite split_from_skip. rewrite H1 by discriminate.
      apply IH; [|reflexivity]. intros _.
      change (rev [] ++ firstn 1 s) with (firstn 1 s).
      apply occurs_short. rewrite length_firstn. lia.
Qed.

(** X19.  No record that the callback is given holds a blank line: the
    content is cut at every pair of line feeds, read from the left. *)
Theorem records_hold_no_blank_line (content : jsstring) :
  Forall (fun r => occurs [LF; LF] r = false) (split [LF; LF] content).
Proof.
  unfold split. apply split_from_free; [|intros H; contradiction].
  intros _. change (rev [] ++ firstn 1 content) with (firstn 1 content).
  apply occurs_short. rewrite length_firstn. lia.
Qed.

End ReplayMore.

(* ===================================================================== *)
(** * Further properties of [JSON.parse] as the scripts use it *)
(* ===================================================================== *)

Module JSMore.
Import JS Replay Compare Scripts JSFacts CompareFacts.

(** A parser that did not run out of budget gives the same answer with
    more. *)
Lemma parse_more_fuel (fuel : nat) :
  (forall s fuel', fuel <= fuel' -> parseValue fuel s <> Starved ->
                   parseValue fuel' s = parseValue fuel s)
  /\ (forall s acc fuel', fuel <= fuel' ->
        parseElements fuel s acc <> Starved ->
        parseElements fuel' s acc = parseElements fuel s acc)
  /\ (forall s acc fuel', fuel <= fuel' ->
        parseMembers fuel s acc <> Starved ->
        parseMembers fuel' s acc = parseMembers fuel s acc).
Proof.
  induction fuel as [|fuel (IHv & IHe & IHm)];
    [repeat split; intros; exfalso; auto|].
  split; [|split].
  - intros s fuel' Hle Hns. destruct fuel' as [|fuel']; [lia|].
    apply le_S_n in Hle.
    cbn [parseValue parseElements parseMembers] in *.
    destruct (skipWhiteSpace s) as [|c r0]; [reflexivity|].
    destruct (c =? 123)%N.
    { destruct (skipWhiteSpace r0) as [|c' r']; [reflexivity|].
      destruct (c' =? 125)%N; [reflexivity|]. now apply IHm. }
    destruct (c =? 91)%N.
    { destruct (skipWhiteSpace r0) as [|c' r']; [reflexivity|].
      destruct (c' =? 93)%N; [reflexivity|]. now apply IHe. }
    reflexivity.
  - intros s acc fuel' Hle Hns. destruct fuel' as [|fuel']; [lia|].
    apply le_S_n in Hle.
    cbn [parseValue parseElements parseMembers] in *.
    assert (Hv : parseValue fuel s <> Starved)
      by (intros E; rewrite E in Hns; auto).
    rewrite (IHv s fuel' Hle Hv).
    destruct (parseValue fuel s) as [v r| |]; try reflexivity.
    destruct (skipWhiteSpace r) as [|c r']; [reflexivity|].
    destruct (c =? 44)%N; [now apply IHe | reflexivity].
  - intros s acc fuel' Hle Hns. destruct fuel' as [|fuel']; [lia|].
    apply le_S_n in Hle.
    cbn [parseValue parseElements parseMembers] in *.
    destruct (skipWhiteSpace s) as [|q r0]; [reflexivity|].
    destruct (q =? 34)%N; [|reflexivity].
    destruct (parseStringBody r0) as [[k r1]|]; [|reflexivity].
    destruct (skipWhiteSpace r1) as [|colon r2]; [reflexivity|].
    destruct (colon =? 58)%N; [|reflexivity].
    assert (Hv : parseValue fuel r2 <> Starved)
      by (intros E; rewrite E in Hns; auto).
    rewrite (IHv r2 fuel' Hle Hv).
    destruct (parseValue fuel r2) as [v r3| |]; try reflexivity.
    destruct (skipWhiteSpace r3) as [|c r4]; [reflexivity|].
    destruct (c =? 44)%N; [now apply IHm | reflexivity].
Qed.

Lemma parseValue_enough (s : jsstring) (fuel : nat) :
  2 * List.length s + 1 <= fuel ->
  parseValue fuel s = parseValue (2 * List.length s + 1) s.
Proof.
  intros H. apply (proj1 (parse_more_fuel _)); [exact H|].
  apply parseText_budget.
Qed.

Lemma skipWhiteSpace_white (w t : jsstring) :
  allJSONWhiteSpace w = true ->
  skipWhiteSpace (w ++ t) = skipWhiteSpace t.
Proof.
  induction w as [|c w IH]; simpl; [reflexivity|].
  intros H. apply andb_true_iff in H as [Hc Hw]. rewrite Hc. auto.
Qed.

Lemma parseValue_white (fuel : nat) (w t : jsstring) :
  allJSONWhiteSpace w = true ->
  parseValue fuel (w ++ t) = parseValue fuel t.
Proof.
  intros H. destruct fuel; [reflexivity|].
  cbn [parseValue]. now rewrite skipWhiteSpace_white.
Qed.

Lemma parseText_white (w text : jsstring) :
  allJSONWhiteSpace w = true ->
  parseText (w ++ text) = parseText text.
Proof.
  intros H. unfold parseText.
  rewrite (parseValue_white _ w text H).
  rewrite (parseValue_enough text (2 * List.length (w ++ text) + 1));
    [reflexivity|].
  rewrite length_app. lia.
Qed.

(** X11.  [JSON.parse] passes over the white space of JSON in front of a
    text: with tabs, line feeds, carriage returns or spaces before it, a
    text is a JSON text or not as it is without them, and denotes the
    same value. *)
Theorem parseText_leading_white_space (w text : jsstring) :
  allJSONWhiteSpace w = true ->
  parseText (w ++ text) = parseText text.
Proof. apply parseText_white. Qed.

(** X12.  The sentinel is told by exact equality with what follows the
    first six code units.  White space in front of it, which [JSON.parse]
    would pass over in front of a payload, makes the record a payload
    that is not a JSON text: the callback throws a [SyntaxError] and the
    stream is not closed. *)
Theorem padded_sentinel_throws (prefix w line : jsstring)
  (controller : Controller) :
  List.length prefix = 6 ->
  w <> [] ->
  allJSONWhiteSpace w = true ->
  trim line = prefix ++ w ++ DONE ->
  onLine line controller = Throw (SyntaxError (w ++ DONE)).
Proof.
  intros Hp Hw Hws Ht. unfold onLine. rewrite Ht.
  assert (Hs : slice 6 (prefix ++ w ++ DONE) = w ++ DONE).
  { unfold slice. rewrite skipn_app, Hp, skipn_all2 by lia. reflexivity. }
  rewrite Hs.
  destruct prefix as [|c prefix]; [discriminate|]. simpl isEmpty.
  cbv iota.
  destruct (jsstring_eqb (w ++ DONE) DONE) eqn:He.
  - apply jsstring_eqb_eq in He.
    apply (f_equal (@List.length N)) in He. rewrite length_app in He.
    destruct w; [contradiction | simpl in He; lia].
  - unfold JSON_parse.
    rewrite (parseText_white w DONE Hws). reflexivity.
Qed.

(** X13.  [JSON.parse] never gives an object with the same key twice, at
    any depth: when a key is written more than once, one member is kept
    for it. *)
Theorem JSON_parse_distinct_keys (text : jsstring) (v : JSON) :
  JSON_parse text = Normal v -> wellFormed v = true.
Proof.
  unfold JSON_parse, parseText.
  destruct (parseValue (2 * List.length text + 1) text) as [v0 r| |] eqn:H;
    try discriminate.
  destruct (isEmpty (skipWhiteSpace r)); [|discriminate].
  intros Hv. injection Hv as <-.
  exact (proj1 (parse_wellFormed _) _ _ _ H).
Qed.

End JSMore.

(* ===================================================================== *)
(** * Further properties of the second script *)
(* ===================================================================== *)

Module CompareMore.
Import JS Compare Scripts CompareFacts.

Lemma filter_nil_iff {A : Type} (p : A -> bool) (l : list A) :
  filter p l = [] <-> Forall (fun x => p x = false) l.
Proof.
  induction l as [|x l IH]; simpl.
  - split; auto.
  - destruct (p x) eqn:Hx.
    + split; [discriminate|]. intros H. inversion H; subst. congruence.
    + rewrite IH. split; [auto|]. intros H. now inversion H.
Qed.

Lemma printed_false (r : DiffResult) : printed r = false <-> type r = equal.
Proof. unfold printed. destruct (type r); simpl; split; congruence. Qed.

Lemma report_nothing (results : list (list DiffResult)) :
  report results [] = [] <-> onlyEqual results.
Proof.
  rewrite report_lines. simpl. unfold onlyEqual.
  rewrite <- Forall_concat.
  split.
  - intros H. apply map_eq_nil in H. apply filter_nil_iff in H.
    eapply Forall_impl; [|exact H]. intros r. apply printed_false.
  - intros H.
    assert (Hf : filter printed (List.concat results) = []).
    { apply filter_nil_iff. eapply Forall_impl; [|exact H].
      intros r. apply printed_false. }
    now rewrite Hf.
Qed.

(** X14.  The report is silent exactly when every record is of type
    [equal]: nothing printed means no difference was reported. *)
Theorem report_silent_iff (results : list (list DiffResult)) :
  report results [] = [] <-> onlyEqual results.
Proof. apply report_nothing. Qed.

(** X15.  How the records are grouped in inner arrays does not matter to
    the report, and reporting two results one after the other is
    reporting them as one. *)
Theorem report_grouping (a b : list (list DiffResult)) (console : Console) :
  report a console = report [List.concat a] console
  /\ report (a ++ b) console = report b (report a console).
Proof.
  split.
  - rewrite !report_lines. simpl. now rewrite app_nil_r.
  - rewrite !report_lines, concat_app, filter_app, map_app.
    now rewrite app_assoc.
Qed.

(** ** A printed line tells its record *)

Lemma digitCodes_inj (d d' : Decimal.uint) :
  digitCodes d = digitCodes d' -> d = d'.
Proof.
  revert d'. induction d; destruct d'; simpl; intros H;
    try discriminate; try reflexivity;
    injection H as H; f_equal; auto.
Qed.

Lemma digitCodes_no_colon (d : Decimal.uint) : ~ In 58%N (digitCodes d).
Proof.
  induction d; simpl; intros H; try contradiction;
    destruct H as [H|H]; try discriminate; auto.
Qed.

Lemma app_separator_inj (x : N) (a a' b b' : jsstring) :
  ~ In x a -> ~ In x a' ->
  a ++ x :: b = a' ++ x :: b' -> a = a' /\ b = b'.
Proof.
  revert a'. induction a as [|y a IH]; intros [|y' a'] Ha Ha' H;
    simpl in *.
  - injection H as ->. auto.
  - injection H as -> _. exfalso. apply Ha'. now left.
  - injection H as -> _. exfalso. apply Ha. now left.
  - injection H as -> H.
    destruct (IH a') as [-> ->]; auto.
Qed.

Lemma typeName_no_space (t : DiffType) : ~ In 32%N (typeName t).
Proof.
  destruct t; vm_compute; intros H;
    repeat (destruct H as [H|H]; [discriminate|]); exact H.
Qed.

Lemma typeName_inj (t t' : DiffType) : typeName t = typeName t' -> t = t'.
Proof. destruct t, t'; intros H; try reflexivity; discriminate. Qed.

(** X16.  A printed line tells its record: two records that print the
    same line have the same line number, the same type and the same
    text. *)
Theorem reportLine_inj (r r' : DiffResult) :
  reportLine r = reportLine r' -> r = r'.
Proof.
  unfold reportLine, numberToString.
  change (lit ":") with [58%N]. change (lit " ") with [32%N].
  simpl app. intros H.
  apply app_separator_inj in H as [Hn H];
    try apply digitCodes_no_colon.
  apply app_separator_inj in H as [Ht Hx];
    try apply typeName_no_space.
  apply digitCodes_inj, DecimalN.Unsigned.to_uint_inj in Hn.
  apply typeName_inj in Ht.
  destruct r, r'. simpl in *. congruence.
Qed.

(** ** The script as a whole *)

(** X17.  The second script ends normally exactly when both snapshots
    are JSON texts, and then it has printed the lines of the records that
    are not [equal]; the standard snapshot is read first, so that when it
    is not a JSON text the [SyntaxError] is about it whatever the other
    one is. *)
Theorem compareScript_outcome
  (differ : JSON -> JSON -> list (list DiffResult))
  (standardText resultText : jsstring) (console : Console) :
  (forall out,
      compareScript differ standardText resultText console = Normal out
      <-> exists standard result,
            parseText standardText = Some standard
            /\ parseText resultText = Some result
            /\ out = console
                     ++ map reportLine
                          (filter printed
                                  (List.concat (differ standard result))))
  /\ (parseText standardText = None ->
      compareScript differ standardText resultText console
      = Throw (SyntaxError standardText))
  /\ (parseText standardText <> None -> parseText resultText = None ->
      compareScript differ standardText resultText console
      = Throw (SyntaxError resultText)).
Proof.
  unfold compareScript, JSON_parse.
  destruct (parseText standardText) as [standard|];
    destruct (parseText resultText) as [result|]; simpl;
    (split; [|split]); try discriminate; try reflexivity;
    try (intros H; contradiction); try (intros _ H; discriminate).
  - intros out. rewrite report_lines. split.
    + intros H. injection H as <-. eauto.
    + intros (st & re & Hs & Hr & ->).
      injection Hs as <-. injection Hr as <-. reflexivity.
  - intros out. split; [discriminate|].
    intros (st & re & _ & Hr & _). discriminate.
  - intros out. split; [discriminate|].
    intros (st & re & Hs & _). discriminate.
  - intros out. split; [discriminate|].
    intros (st & re & Hs & _). discriminate.
Qed.

(** X18.  With a differ that reports only [equal] records when a tree is
    compared with itself, comparing a snapshot with itself prints
    nothing, provided the snapshot is a JSON text. *)
Theorem compareScript_same_file
  (differ : JSON -> JSON -> list (list DiffResult))
  (text : jsstring) (console : Console) :
  (forall x, wellFormed x = true -> onlyEqual (differ x x)) ->
  parseText text <> None ->
  compareScript differ text text console = Normal console.
Proof.
  intros Hd Hp. unfold compareScript, JSON_parse.
  destruct (parseText text) as [v|] eqn:Hv; [|contradiction]. simpl.
  rewrite report_lines.
  assert (Hs : report (differ v v) [] = []).
  { apply report_nothing, Hd. exact (parseText_wellFormed _ _ Hv). }
  rewrite report_lines in Hs. simpl in Hs. rewrite Hs.
  now rewrite app_nil_r.
Qed.

End CompareMore.

(* ===================================================================== *)
(** * The further properties on concrete inputs *)
(* ===================================================================== *)

Module MoreExamples.
Import JS Replay Compare Scripts CompareFacts ReplayMore JSMore CompareMore.

Lemma main_returns_iff_witness :
  main JSON emptyState concatDelta (scenarioStream "data: ")
  = Returns
      (Indented JSON 2
         (fold_left concatDelta
            [JObject [(lit "delta", JString (lit "He"))];
             JObject [(lit "delta", JString (lit "llo"))]]
            emptyState)).
Proof.
  apply (proj2 (main_returns_iff JSON emptyState concatDelta
                  (scenarioStream "data: ") _)).
  exists [deltaPayload "He"; deltaPayload "llo"],
         [JObject [(lit "delta", JString (lit "He"))];
          JObject [(lit "delta", JString (lit "llo"))]].
  split; [vm_compute; reflexivity|].
  split; [vm_compute; reflexivity|].
  split; [discriminate | reflexivity].
Defined.

Lemma main_never_settles_iff_witness :
  main JSON emptyState concatDelta [] = NeverSettles.
Proof.
  apply (proj2 (main_never_settles_iff JSON emptyState concatDelta [])).
  exists [], []. split; reflexivity.
Defined.

Lemma main_invalid_arg_iff_witness :
  main JSON emptyState concatDelta (record "data: " DONE)
  = Throws (TypeError ERR_INVALID_ARG_TYPE).
Proof.
  apply (proj2 (main_invalid_arg_iff JSON emptyState concatDelta
                  (record "data: " DONE))).
  vm_compute. reflexivity.
Defined.

Lemma main_invalid_state_iff_witness :
  main JSON emptyState concatDelta
       (joinRecords [record "data: " DONE; record "data: " DONE])
  = Throws (TypeError ERR_INVALID_STATE).
Proof.
  apply (proj2 (main_invalid_state_iff JSON emptyState concatDelta
                  (joinRecords [record "data: " DONE;
                                record "data: " DONE]))).
  exists [], [], Terminal, [].
  split; [vm_compute; reflexivity|].
  split; [reflexivity | left; reflexivity].
Defined.

Lemma main_syntax_error_iff_witness :
  main JSON emptyState concatDelta
       (joinRecords [record "data: " (lit "1"); record "data: " (lit "x");
                     record "data: " DONE])
  = Throws (SyntaxError (lit "x")).
Proof.
  apply (proj2 (main_syntax_error_iff JSON emptyState concatDelta
                  (joinRecords [record "data: " (lit "1");
                                record "data: " (lit "x");
                                record "data: " DONE])
                  (lit "x"))).
  exists [lit "1"], [JNumber (lit "1")], false, [Terminal].
  split; [vm_compute; reflexivity|].
  split; vm_compute; reflexivity.
Defined.

Lemma short_record_throws_witness :
  onLine DONE newController = Throw (SyntaxError []).
Proof.
  apply (short_record_throws DONE newController).
  - vm_compute. discriminate.
  - vm_compute. lia.
Defined.

Lemma start_without_blank_line_witness :
  split [LF; LF]
        (lit "data: 1" ++ [13%N; LF; 13%N; LF] ++ lit "data: [DONE]")
  = [lit "data: 1" ++ [13%N; LF; 13%N; LF] ++ lit "data: [DONE]"]
  /\ start (lit "data: 1" ++ [13%N; LF; 13%N; LF] ++ lit "data: [DONE]")
           newController
     = onLine (lit "data: 1" ++ [13%N; LF; 13%N; LF] ++ lit "data: [DONE]")
              newController.
Proof.
  apply (start_without_blank_line
           (lit "data: 1" ++ [13%N; LF; 13%N; LF] ++ lit "data: [DONE]")
           newController).
  vm_compute. reflexivity.
Defined.

Lemma start_app_witness :
  split [LF; LF]
        (record "data: " (lit "1") ++ [LF; LF] ++ record "data: " DONE)
  = split [LF; LF] (record "data: " (lit "1"))
    ++ split [LF; LF] (record "data: " DONE)
  /\ start (record "data: " (lit "1") ++ [LF; LF] ++ record "data: " DONE)
           newController
     = (controller' <- start (record "data: " (lit "1")) newController ;;
        start (record "data: " DONE) controller').
Proof.
  apply (start_app (record "data: " (lit "1")) (record "data: " DONE)
                   newController).
  vm_compute. discriminate.
Defined.

Lemma white_space_is_insignificant_witness :
  onLine ([LF] ++ record "data: " (lit "1") ++ [13%N]) newController
  = onLine (record "data: " (lit "1")) newController
  /\ forEach onLine
       ([record "data: " (lit "1")] ++ [LF] :: [record "data: " DONE])
       newController
     = forEach onLine
         ([record "data: " (lit "1")] ++ [record "data: " DONE])
         newController.
Proof.
  split.
  - apply (proj1 white_space_is_insignificant); reflexivity.
  - apply (proj2 white_space_is_insignificant); reflexivity.
Defined.

Lemma parseText_leading_white_space_witness :
  parseText (lit "  " ++ lit "{}") = parseText (lit "{}").
Proof.
  apply (parseText_leading_white_space (lit "  ") (lit "{}")).
  reflexivity.
Defined.

Lemma padded_sentinel_throws_witness :
  onLine (lit "data:  [DONE]") newController
  = Throw (SyntaxError (lit " " ++ DONE)).
Proof.
  apply (padded_sentinel_throws (lit "data: ") (lit " ")
           (lit "data:  [DONE]") newController).
  - reflexivity.
  - discriminate.
  - reflexivity.
  - vm_compute. reflexivity.
Defined.

Lemma JSON_parse_distinct_keys_witness :
  wellFormed (JObject [(lit "a", JNumber (lit "2"))]) = true.
Proof.
  apply (JSON_parse_distinct_keys
           (lit "{" ++ quoted "a" ++ lit ":1," ++ quoted "a" ++ lit ":2}")
           (JObject [(lit "a", JNumber (lit "2"))])).
  vm_compute. reflexivity.
Defined.

Lemma report_silent_iff_witness :
  report [[{| type := equal; lineNumber := 1; text := lit "{" |};
           {| type := equal; lineNumber := 2; text := lit "}" |}]] []
  = [].
Proof.
  apply (proj2 (report_silent_iff
                  [[{| type := equal; lineNumber := 1; text := lit "{" |};
                    {| type := equal; lineNumber := 2;
                       text := lit "}" |}]])).
  repeat constructor.
Defined.

Lemma reportLine_inj_witness :
  {| type := modify; lineNumber := 12; text := lit "x" |}
  = {| type := modify; lineNumber := (3 * 4); text := lit "x" |}.
Proof.
  apply (reportLine_inj
           {| type := modify; lineNumber := 12; text := lit "x" |}
           {| type := modify; lineNumber := (3 * 4); text := lit "x" |}).
  vm_compute. reflexivity.
Defined.

Lemma compareScript_outcome_witness :
  compareScript (fun _ _ => []) (lit "x") (lit "y") []
  = Throw (SyntaxError (lit "x")).
Proof.
  apply (proj1 (proj2 (compareScript_outcome (fun _ _ => [])
                         (lit "x") (lit "y") []))).
  vm_compute. reflexivity.
Defined.

Lemma compareScript_same_file_witness :
  compareScript (fun l r => [diff describeByType sourceOptions l r])
                (lit "{" ++ quoted "text" ++ lit ":" ++ quoted "Hello"
                 ++ lit "}")
                (lit "{" ++ quoted "text" ++ lit ":" ++ quoted "Hello"
                 ++ lit "}")
                []
  = Normal [].
Proof.
  apply (compareScript_same_file
           (fun l r => [diff describeByType sourceOptions l r])).
  - intros x Hx. constructor; [|constructor].
    apply allSame_numbered. now apply compare_same.
  - vm_compute. discriminate.
Defined.

Lemma prefix_is_ignored_witness :
  onLine (lit "data: [DONE]") newController
  = onLine (lit "event:[DONE]") newController.
Proof.
  apply (prefix_is_ignored (lit "data: ") (lit "event:") DONE);
    vm_compute; reflexivity.
Defined.

End MoreExamples.
